(** * Minesweeper knowledge-base agent (minesweeper/minesweeper.py)

    A shallow embedding of the classes [Sentence] and [MinesweeperAI] and a
    verification of the statements made about them.

    Modelling conventions.
    - A cell is a Python tuple of two ints: a pair of [Z].
    - A Python [set] of cells is a [gset Cell].  Where the program iterates
      over a set, the model iterates over [elements].  Python leaves that
      order unspecified.  The state in which the loops of step 4 return
      does not depend on it ([mark_safes_Permutation],
      [mark_mines_Permutation]); the state in which they raise does.
      [make_safe_move] returns the first eligible cell in that order, and
      what is proved of it holds whichever cell comes first.
    - A [Sentence] object is a record; the knowledge base is the Python list
      of sentence objects.  Sentences are mutated in place through the list,
      so a mutation is modelled by rewriting the list position by position.
      No sentence object is ever stored twice, hence there is no aliasing
      between positions.
    - A method that can raise returns an [outcome]: the state is carried by
      both constructors, because Python does not roll mutations back when an
      exception propagates.
    - The loop of step 5 of [add_knowledge] walks a list that grows while it
      is walked; it is modelled with a step budget ([fuel]) and proved to
      terminate, with a result that does not depend on the budget.
    - The two [print] calls of [add_knowledge] write to the terminal and
      change nothing; they are left out.  The class [Minesweeper] (the
      board) is not used by the agent; it is embedded after it, in the
      module [Minesweeper]. *)

From stdpp Require Import gmap list list_numbers sets fin_sets.

#[local] Set Warnings "-clear-no-such-hyp".

Open Scope Z_scope.

(** ** Data model *)

Definition Cell : Type := Z * Z.

Record Sentence : Type := mkSentence {
  cells : gset Cell;
  count : Z
}.

Record MinesweeperAI : Type := mkAI {
  height : Z;
  width : Z;
  moves_made : gset Cell;
  mines : gset Cell;
  safes : gset Cell;
  knowledge : list Sentence
}.

Inductive exn : Type := ValueError.

(** State after a call, together with the way the call ended. *)
Inductive outcome (S : Type) : Type :=
| Returned (s : S)
| Raised (e : exn) (s : S).
Arguments Returned {S} s.
Arguments Raised {S} e s.

Definition state_of {S} (o : outcome S) : S :=
  match o with Returned s => s | Raised _ s => s end.

#[global] Instance Sentence_eq_dec : EqDecision Sentence.
Proof. solve_decision. Defined.

#[global] Instance exn_eq_dec : EqDecision exn.
Proof. solve_decision. Defined.

(** ** class Sentence *)

Module Sentence.

(** [__init__]: [self.cells = set(cells)], [self.count = count]. *)
Definition init (cs : gset Cell) (n : Z) : Sentence :=
  {| cells := cs; count := n |}.

(** [__eq__]. *)
Definition eqb (s t : Sentence) : bool :=
  bool_decide (cells s = cells t) && bool_decide (count s = count t).

(** [len(self.cells)]. *)
Definition len (s : Sentence) : Z := Z.of_nat (size (cells s)).

Definition known_mines (s : Sentence) : gset Cell :=
  if decide (len s = count s) then cells s else ∅.

Definition known_safes (s : Sentence) : gset Cell :=
  if decide (count s = 0) then cells s else ∅.

(** The first [if] of [mark_mine]: the mutation. *)
Definition remove_mine (s : Sentence) (c : Cell) : Sentence :=
  if decide (c ∈ cells s)
  then {| cells := cells s ∖ {[c]}; count := count s - 1 |}
  else s.

Definition mark_mine (s : Sentence) (c : Cell) : outcome Sentence :=
  let s' := remove_mine s c in
  if decide (count s' < 0) then Raised ValueError s' else Returned s'.

Definition mark_safe (s : Sentence) (c : Cell) : Sentence :=
  if decide (c ∈ cells s)
  then {| cells := cells s ∖ {[c]}; count := count s |}
  else s.

End Sentence.

(** ** class MinesweeperAI *)

Definition init (h w : Z) : MinesweeperAI :=
  {| height := h; width := w; moves_made := ∅; mines := ∅; safes := ∅;
     knowledge := [] |}.

Definition set_knowledge (a : MinesweeperAI) (K : list Sentence) : MinesweeperAI :=
  {| height := height a; width := width a; moves_made := moves_made a;
     mines := mines a; safes := safes a; knowledge := K |}.

Definition add_move (a : MinesweeperAI) (c : Cell) : MinesweeperAI :=
  {| height := height a; width := width a; moves_made := {[c]} ∪ moves_made a;
     mines := mines a; safes := safes a; knowledge := knowledge a |}.

Definition add_mine (a : MinesweeperAI) (c : Cell) : MinesweeperAI :=
  {| height := height a; width := width a; moves_made := moves_made a;
     mines := {[c]} ∪ mines a; safes := safes a; knowledge := knowledge a |}.

Definition add_safe (a : MinesweeperAI) (c : Cell) : MinesweeperAI :=
  {| height := height a; width := width a; moves_made := moves_made a;
     mines := mines a; safes := {[c]} ∪ safes a; knowledge := knowledge a |}.

(** [for sentence in self.knowledge: sentence.mark_mine(cell)].  When a
    sentence raises, the sentences before it have been updated, the raising
    one has been mutated and the ones after it are untouched. *)
Fixpoint mark_mine_each (c : Cell) (K : list Sentence) : outcome (list Sentence) :=
  match K with
  | [] => Returned []
  | s :: K' =>
      match Sentence.mark_mine s c with
      | Raised e s' => Raised e (s' :: K')
      | Returned s' =>
          match mark_mine_each c K' with
          | Returned K'' => Returned (s' :: K'')
          | Raised e K'' => Raised e (s' :: K'')
          end
      end
  end.

Definition mark_mine (a : MinesweeperAI) (c : Cell) : outcome MinesweeperAI :=
  let a1 := add_mine a c in
  match mark_mine_each c (knowledge a1) with
  | Returned K => Returned (set_knowledge a1 K)
  | Raised e K => Raised e (set_knowledge a1 K)
  end.

Definition mark_safe (a : MinesweeperAI) (c : Cell) : MinesweeperAI :=
  let a1 := add_safe a c in
  set_knowledge a1 ((λ s, Sentence.mark_safe s c) <$> knowledge a1).

(** [range(lo, hi)]. *)
Definition range (lo hi : Z) : list Z := seqZ lo (hi - lo).

(** The set [neighbors] built by the two nested loops of step 3. *)
Definition neighbors (a : MinesweeperAI) (cell : Cell) : gset Cell :=
  list_to_set
    (i ← range (cell.1 - 1) (cell.1 + 2);
     j ← range (cell.2 - 1) (cell.2 + 2);
     if decide ((i, j) ≠ cell ∧ (0 ≤ i < height a) ∧ (0 ≤ j < width a))
     then [(i, j)] else []).

(** Steps 1 to 3 of [add_knowledge]. *)
Definition observe (a : MinesweeperAI) (cell : Cell) (n : Z) : MinesweeperAI :=
  let a1 := add_move a cell in
  let a2 := mark_safe a1 cell in
  let new_sentence := Sentence.init (neighbors a2 cell) n in
  set_knowledge a2 (knowledge a2 ++ [new_sentence]).

(** [for mine in ...: self.mark_mine(mine)]. *)
Fixpoint mark_mines (cs : list Cell) (a : MinesweeperAI) : outcome MinesweeperAI :=
  match cs with
  | [] => Returned a
  | c :: cs' =>
      match mark_mine a c with
      | Returned a' => mark_mines cs' a'
      | Raised e a' => Raised e a'
      end
  end.

(** [for safe in ...: self.mark_safe(safe)]. *)
Definition mark_safes (cs : list Cell) (a : MinesweeperAI) : MinesweeperAI :=
  foldl mark_safe a cs.

(** The body of the loop of step 4 for the sentence at position [k] of the
    snapshot, which is the object at position [k] of the knowledge base. *)
Definition conclude_at (k : nat) (a : MinesweeperAI) : outcome MinesweeperAI :=
  match knowledge a !! k with
  | None => Returned a
  | Some s =>
      match mark_mines (elements (Sentence.known_mines s)) a with
      | Raised e a1 => Raised e a1
      | Returned a1 =>
          match knowledge a1 !! k with
          | None => Returned a1
          | Some s1 => Returned (mark_safes (elements (Sentence.known_safes s1)) a1)
          end
      end
  end.

Fixpoint conclude_each (ks : list nat) (a : MinesweeperAI) : outcome MinesweeperAI :=
  match ks with
  | [] => Returned a
  | k :: ks' =>
      match conclude_at k a with
      | Returned a' => conclude_each ks' a'
      | Raised e a' => Raised e a'
      end
  end.

(** Step 4: [for sentence in self.knowledge.copy(): ...]. *)
Definition conclude (a : MinesweeperAI) : outcome MinesweeperAI :=
  conclude_each (seq 0 (length (knowledge a))) a.

(** The two list comprehensions that follow step 4. *)
Definition has_cells (s : Sentence) : Prop := cells s ≠ ∅.

Definition keeps (s : Sentence) : Prop :=
  0 < count s ∨ (count s = 0 ∧ cells s ≠ ∅).

#[global] Instance has_cells_dec s : Decision (has_cells s).
Proof. unfold has_cells. apply _. Defined.

#[global] Instance keeps_dec s : Decision (keeps s).
Proof. unfold keeps. apply _. Defined.

Definition cleanup (K : list Sentence) : list Sentence :=
  filter keeps (filter has_cells K).

(** [sentence in lst], through [__eq__]. *)
Definition mem (s : Sentence) (K : list Sentence) : bool :=
  existsb (Sentence.eqb s) K.

(** The loop that builds [new_knowledge], from the list built so far. *)
Definition dedup_from (acc K : list Sentence) : list Sentence :=
  foldl (λ acc s, if mem s acc then acc else acc ++ [s]) acc K.

Definition dedup (K : list Sentence) : list Sentence := dedup_from [] K.

(** The body of the two nested loops of step 5, for one pair. *)
Definition infer (s1 s2 : Sentence) (K : list Sentence) : list Sentence :=
  if negb (Sentence.eqb s1 s2) then
    if decide (cells s1 ⊆ cells s2) then
      let inferred_cells := cells s2 ∖ cells s1 in
      let inferred_count := count s2 - count s1 in
      if decide (inferred_cells ≠ ∅ ∧ 0 ≤ inferred_count) then
        let new_sentence := Sentence.init inferred_cells inferred_count in
        if mem new_sentence K then K else K ++ [new_sentence]
      else K
    else K
  else K.

(** Step 5.  Both loops iterate by position over the list they append to,
    so each re-reads the length on every iteration. *)
Fixpoint subset_loop (fuel : nat) (K : list Sentence) (i j : nat)
    : option (list Sentence) :=
  match fuel with
  | O => None
  | S fuel' =>
      match K !! i with
      | None => Some K
      | Some s1 =>
          match K !! j with
          | None => subset_loop fuel' K (S i) 0
          | Some s2 => subset_loop fuel' (infer s1 s2 K) i (S j)
          end
      end
  end.

(** The sentences retained when step 5 starts. *)
Definition retained (a : MinesweeperAI) : list Sentence :=
  dedup (cleanup (knowledge a)).

(** Steps 4 and 5 with the clean-up between them. [None]: out of fuel. *)
Definition inference_pass (fuel : nat) (a : MinesweeperAI)
    : option (outcome MinesweeperAI) :=
  match conclude a with
  | Raised e a1 => Some (Raised e a1)
  | Returned a1 =>
      K ← subset_loop fuel (retained a1) 0 0;
      Some (Returned (set_knowledge a1 K))
  end.

(** [add_knowledge(cell, count)]: steps 1 to 3 ([observe]), then step 4
    ([conclude]), the clean-up ([retained]) and step 5 ([subset_loop]),
    each once and in this order. *)
Definition add_knowledge (fuel : nat) (a : MinesweeperAI) (cell : Cell) (n : Z)
    : option (outcome MinesweeperAI) :=
  inference_pass fuel (observe a cell n).

(** [make_safe_move]: the first cell of [safes], in iteration order, that is
    not in [moves_made].  The agent is returned with the cell to state that
    the call leaves it as it was. *)
Definition make_safe_move (a : MinesweeperAI) : option Cell * MinesweeperAI :=
  (find (λ c, bool_decide (c ∉ moves_made a)) (elements (safes a)), a).

(** The list [choices] of [make_random_move]. *)
Definition choices (a : MinesweeperAI) : list Cell :=
  (i ← range 0 (height a);
   j ← range 0 (width a);
   if decide (((i, j) ∉ moves_made a) ∧ ((i, j) ∉ mines a)) then [(i, j)] else []).

Section RandomMove.
(** [random.choice(seq)] is [seq[randbelow(len(seq))]]; the generator is
    an oracle, assumed below to answer below its argument. *)
Variable randbelow : nat → nat.

Definition make_random_move (a : MinesweeperAI) : option Cell * MinesweeperAI :=
  match choices a with
  | [] => (None, a)
  | c :: cs => ((c :: cs) !! randbelow (length (c :: cs)), a)
  end.
End RandomMove.

(** ** Reachable agent states

    The states an agent goes through when every call made on it returns.
    The two move selectors are left out: they return the agent unchanged. *)
Inductive reachable : MinesweeperAI → Prop :=
| reach_init h w : reachable (init h w)
| reach_mark_mine a c a' :
    reachable a → mark_mine a c = Returned a' → reachable a'
| reach_mark_safe a c :
    reachable a → reachable (mark_safe a c)
| reach_add_knowledge fuel a cell n a' :
    reachable a → add_knowledge fuel a cell n = Some (Returned a') → reachable a'.

(** The state in which a call returned; [None] if it raised or ran out of
    fuel. *)
Definition returned (o : option (outcome MinesweeperAI)) : option MinesweeperAI :=
  o ≫= λ r, match r with Returned a => Some a | Raised _ _ => None end.

(** ** A bound on the sentences of step 5

    Every sentence that step 5 can add draws its cells from the cells that
    are already there and its count from [0 .. M], where [M] bounds the
    counts that are already there.  [universe U M] lists all such
    sentences; [missing] counts those not yet in the knowledge base. *)
Fixpoint subsets (l : list Cell) : list (gset Cell) :=
  match l with
  | [] => [∅]
  | c :: l' => subsets l' ++ ((λ X, {[c]} ∪ X) <$> subsets l')
  end.

Definition universe (U : gset Cell) (M : Z) : list Sentence :=
  X ← subsets (elements U); n ← seqZ 0 (M + 1); [Sentence.init X n].

Definition missing (U : gset Cell) (M : Z) (K : list Sentence) : nat :=
  length (filter (λ s, s ∉ K) (universe U M)).

Definition bounded (U : gset Cell) (M : Z) (K : list Sentence) : Prop :=
  Forall (λ s, cells s ⊆ U ∧ 0 ≤ count s ≤ M) K.

(** ** Predicates used in the proofs about step 4 *)

(** The sentence at position [n] has count 0 and each of the cells of [T]
    is in it or already in [safes]. *)
Definition pending_safe (n : nat) (T : gset Cell) (a : MinesweeperAI) : Prop :=
  ∃ s, knowledge a !! n = Some s ∧ count s = 0 ∧
       ∀ c, c ∈ T → c ∈ cells s ∨ c ∈ safes a.

(** ** Predicates used in the proofs about step 5 *)

(** The conditions under which the pair [(s1, s2)] yields a sentence. *)
Definition rule_applies (s1 s2 : Sentence) : Prop :=
  s1 ≠ s2 ∧ cells s1 ⊆ cells s2 ∧ cells s2 ∖ cells s1 ≠ ∅ ∧
  0 ≤ count s2 - count s1.

Definition derived (s1 s2 : Sentence) : Sentence :=
  Sentence.init (cells s2 ∖ cells s1) (count s2 - count s1).

(** The pair has nothing left to add. *)
Definition closed_pair (K : list Sentence) (s1 s2 : Sentence) : Prop :=
  rule_applies s1 s2 → derived s1 s2 ∈ K.

Definition closed (K : list Sentence) : Prop :=
  ∀ s1 s2, s1 ∈ K → s2 ∈ K → closed_pair K s1 s2.

(** The sentence [w] at position [j] was appended while a row after [i]
    was walked, from a sentence at an earlier position than [j]. *)
Definition late (K : list Sentence) (i j : nat) (w : Sentence) : Prop :=
  ∃ r b t s, (i < r)%nat ∧ (b < j)%nat ∧ K !! r = Some t ∧ K !! b = Some s ∧
             rule_applies t s ∧ w = derived t s.

Definition well_formed (K : list Sentence) : Prop :=
  Forall (λ s, 0 ≤ count s ∧ cells s ≠ ∅) K.

(** What holds when the loops of step 5 stand at row [i], column [j]. *)
Definition walked (K : list Sentence) (i j : nat) : Prop :=
  (∀ i' j' x w, (i' < i)%nat → K !! i' = Some x → K !! j' = Some w →
                closed_pair K x w ∨ late K i' j' w) ∧
  (∀ j' x w, (j' < j)%nat → K !! i = Some x → K !! j' = Some w →
             closed_pair K x w).

(** No trivial deduction can be drawn from the sentence. *)
Definition undecided (s : Sentence) : Prop :=
  count s ≠ 0 ∧ Sentence.len s ≠ count s.

#[global] Instance undecided_dec s : Decision (undecided s).
Proof. unfold undecided. apply _. Defined.


(** ** The specification's reading of step 3

    These definitions follow the words of the specification, not the
    program; they are what [observe] is compared with. *)




(** ** States used in the examples *)

(** A 3 x 3 board on which the corner (0,0) was revealed with count 0. *)
Definition corner_revealed : MinesweeperAI :=
  {| height := 3; width := 3; moves_made := {[ (0, 0) ]}; mines := ∅;
     safes := {[ (0, 0); (0, 1); (1, 0); (1, 1) ]}; knowledge := [] |}.

(** A 3 x 3 board on which the opposite corner (2,2) was revealed with
    count 1. *)
Definition far_corner_revealed : MinesweeperAI :=
  {| height := 3; width := 3; moves_made := {[ (2, 2) ]}; mines := ∅;
     safes := {[ (2, 2) ]};
     knowledge := [ {| cells := {[ (1, 1); (1, 2); (2, 1) ]}; count := 1 |} ] |}.

(** A 3 x 3 board on which (0,2) was revealed with count 2 and the driver
    then marked (1,2) safe: the one sentence says that (0,1) and (1,1) are
    both mines. *)
Definition corner_blocked : MinesweeperAI :=
  {| height := 3; width := 3; moves_made := {[ (0, 2) ]}; mines := ∅;
     safes := {[ (0, 2); (1, 2) ]};
     knowledge := [ {| cells := {[ (0, 1); (1, 1) ]}; count := 2 |} ] |}.


(** A 2 x 3 board on which (0,1) was revealed with count 1. *)
Definition middle_once : MinesweeperAI :=
  {| height := 2; width := 3; moves_made := {[ (0, 1) ]}; mines := ∅;
     safes := {[ (0, 1) ]};
     knowledge :=
       [ {| cells := {[ (0, 0); (0, 2); (1, 0); (1, 1); (1, 2) ]}; count := 1 |} ] |}.

(** The same board after the driver marked (0,0) safe and (0,1) was
    reported again, now with count 4. *)
Definition middle_twice : MinesweeperAI :=
  {| height := 2; width := 3; moves_made := {[ (0, 1) ]}; mines := ∅;
     safes := {[ (0, 0); (0, 1) ]};
     knowledge :=
       [ {| cells := {[ (0, 2); (1, 0); (1, 1); (1, 2) ]}; count := 1 |};
         {| cells := {[ (0, 0); (0, 2); (1, 0); (1, 1); (1, 2) ]}; count := 4 |};
         {| cells := {[ (0, 0) ]}; count := 3 |} ] |}.

(** The sentences of the subset-rule example. *)
Definition sentence_A : Sentence :=
  {| cells := {[ (1, 1); (1, 2) ]}; count := 1 |}.
Definition sentence_B : Sentence :=
  {| cells := {[ (1, 1); (1, 2); (1, 3) ]}; count := 2 |}.
Definition sentence_C : Sentence :=
  {| cells := {[ (1, 3) ]}; count := 1 |}.

(** A 2 x 8 board on which (0,1) was revealed with count 1 and then (0,2)
    with count 2. *)
Definition row_revealed : MinesweeperAI :=
  {| height := 2; width := 8; moves_made := {[ (0, 1); (0, 2) ]}; mines := ∅;
     safes := {[ (0, 1); (0, 2) ]};
     knowledge :=
       [ {| cells := {[ (0, 0); (1, 0); (1, 1); (1, 2) ]}; count := 1 |};
         {| cells := {[ (0, 1); (0, 3); (1, 1); (1, 2); (1, 3) ]}; count := 2 |} ] |}.

(** [row_revealed] after the driver marked (0,0), (1,0), (0,1) and (0,3)
    safe.  The knowledge base is [A; B]. *)
Definition row_hinted : MinesweeperAI :=
  {| height := 2; width := 8; moves_made := {[ (0, 1); (0, 2) ]}; mines := ∅;
     safes := {[ (0, 0); (0, 1); (0, 2); (0, 3); (1, 0) ]};
     knowledge := [ sentence_A; sentence_B ] |}.

(** [row_hinted] after (0,6) was revealed with count 1. *)
Definition row_derived : MinesweeperAI :=
  {| height := 2; width := 8; moves_made := {[ (0, 1); (0, 2); (0, 6) ]};
     mines := ∅;
     safes := {[ (0, 0); (0, 1); (0, 2); (0, 3); (1, 0); (0, 6) ]};
     knowledge :=
       [ sentence_A; sentence_B;
         {| cells := {[ (0, 5); (0, 7); (1, 5); (1, 6); (1, 7) ]}; count := 1 |};
         sentence_C ] |}.

(** A 2 x 3 board with one mine, at (1,0): (0,0) was revealed with
    count 1. *)
Definition one_reveal : MinesweeperAI :=
  {| height := 2; width := 3; moves_made := {[ (0, 0) ]}; mines := ∅;
     safes := {[ (0, 0) ]};
     knowledge := [ {| cells := {[ (0, 1); (1, 0); (1, 1) ]}; count := 1 |} ] |}.

(** Then (0,1) was revealed with count 1. *)
Definition two_reveals : MinesweeperAI :=
  {| height := 2; width := 3; moves_made := {[ (0, 0); (0, 1) ]}; mines := ∅;
     safes := {[ (0, 0); (0, 1) ]};
     knowledge :=
       [ {| cells := {[ (1, 0); (1, 1) ]}; count := 1 |};
         {| cells := {[ (0, 0); (0, 2); (1, 0); (1, 1); (1, 2) ]}; count := 1 |};
         {| cells := {[ (0, 0); (0, 2); (1, 2) ]}; count := 0 |} ] |}.

(** [two_reveals] after one more run of the inference pass. *)
Definition two_reveals_again : MinesweeperAI :=
  {| height := 2; width := 3; moves_made := {[ (0, 0); (0, 1) ]}; mines := ∅;
     safes := {[ (0, 0); (0, 1); (0, 2); (1, 2) ]};
     knowledge := [ {| cells := {[ (1, 0); (1, 1) ]}; count := 1 |} ] |}.

(** A 2 x 3 board on which (0,0) was revealed with count 1 and then (0,1)
    with count 2. *)
Definition two_reveals_open : MinesweeperAI :=
  {| height := 2; width := 3; moves_made := {[ (0, 0); (0, 1) ]}; mines := ∅;
     safes := {[ (0, 0); (0, 1) ]};
     knowledge :=
       [ {| cells := {[ (1, 0); (1, 1) ]}; count := 1 |};
         {| cells := {[ (0, 0); (0, 2); (1, 0); (1, 1); (1, 2) ]}; count := 2 |};
         {| cells := {[ (0, 0); (0, 2); (1, 2) ]}; count := 1 |} ] |}.

(** ** class Minesweeper

    The board the agent plays on.  [random.randrange] is an oracle: the
    list [draws] holds the pairs it answers, in order.  A method that can
    fail on an index returns an [option], [None] being Python's IndexError.
    [print] only writes to the terminal and is left out. *)

Module Minesweeper.

Inductive exn : Type := ValueError | IndexError.

Record t : Type := mk {
  height : Z;
  width : Z;
  mines : gset Cell;
  board : list (list bool);
  mines_found : gset Cell
}.

(** The position that index [i] denotes in a Python list of length [n]: a
    negative index counts from the end. *)
Definition position (n : nat) (i : Z) : option nat :=
  if decide (0 ≤ i) then
    if decide (i < Z.of_nat n) then Some (Z.to_nat i) else None
  else
    if decide (0 ≤ Z.of_nat n + i) then Some (Z.to_nat (Z.of_nat n + i)) else None.

(** [l[i]]. *)
Definition index {A} (l : list A) (i : Z) : option A :=
  k ← position (length l) i; l !! k.

(** [self.board[i][j]]. *)
Definition board_at (b : list (list bool)) (i j : Z) : option bool :=
  row ← index b i; index row j.

(** [self.board[i][j] = True], after [self.board[i][j]] has been read. *)
Definition board_set (b : list (list bool)) (i j : Z) : list (list bool) :=
  match position (length b) i with
  | Some k =>
      alter (λ row, match position (length row) j with
                    | Some m => <[m := true]> row
                    | None => row
                    end) k b
  | None => b
  end.

(** The two nested loops that build the empty field. *)
Definition new_board (h w : Z) : list (list bool) :=
  (λ _, (λ _, false) <$> range 0 w) <$> range 0 h.

(** The loop [while len(self.mines) != mines].  [None]: the loop is still
    running when the draws are used up. *)
Fixpoint place (h w target : Z) (draws : list Cell) (ms : gset Cell)
    (b : list (list bool)) : option (exn + gset Cell * list (list bool)) :=
  if decide (Z.of_nat (size ms) = target) then Some (inr (ms, b))
  else if decide (h ≤ 0 ∨ w ≤ 0) then Some (inl ValueError)
  else
    match draws with
    | [] => None
    | (i, j) :: draws' =>
        match board_at b i j with
        | None => Some (inl IndexError)
        | Some true => place h w target draws' ms b
        | Some false => place h w target draws' ({[(i, j)]} ∪ ms) (board_set b i j)
        end
    end.

(** [__init__(height, width, mines)]. *)
Definition init (h w n : Z) (draws : list Cell) : option (exn + t) :=
  r ← place h w n draws ∅ (new_board h w);
  Some match r with
       | inl e => inl e
       | inr (ms, b) =>
           inr {| height := h; width := w; mines := ms; board := b;
                  mines_found := ∅ |}
       end.

Definition is_mine (g : t) (cell : Cell) : option bool :=
  board_at (board g) cell.1 cell.2.

(** The body of the two loops of [nearby_mines], over the pairs they
    visit. *)
Fixpoint count_mines (g : t) (cell : Cell) (ps : list Cell) (count : Z) : option Z :=
  match ps with
  | [] => Some count
  | (i, j) :: ps' =>
      if decide ((i, j) = cell) then count_mines g cell ps' count
      else if decide ((0 ≤ i < height g) ∧ (0 ≤ j < width g)) then
        is_m ← board_at (board g) i j;
        count_mines g cell ps' (if is_m : bool then count + 1 else count)
      else count_mines g cell ps' count
  end.

(** The pairs visited by [for i in range(c0 - 1, c0 + 2)], [for j in
    range(c1 - 1, c1 + 2)]. *)
Definition around (cell : Cell) : list Cell :=
  (i ← range (cell.1 - 1) (cell.1 + 2);
   j ← range (cell.2 - 1) (cell.2 + 2);
   [(i, j)]).

Definition nearby_mines (g : t) (cell : Cell) : option Z :=
  count_mines g cell (around cell) 0.

Definition won (g : t) : bool := bool_decide (mines_found g = mines g).

(** The field and the set of mines say the same, and every mine is on the
    board: what [__init__] establishes. *)
Definition consistent (g : t) : Prop :=
  (∀ i j, 0 ≤ i < height g → 0 ≤ j < width g →
          board_at (board g) i j = Some (bool_decide ((i, j) ∈ mines g))) ∧
  (∀ i j, (i, j) ∈ mines g → (0 ≤ i < height g) ∧ (0 ≤ j < width g)).

(** The field has [height] rows of [width] entries. *)
Definition shaped (h w : Z) (b : list (list bool)) : Prop :=
  length b = Z.to_nat h ∧ Forall (λ row, length row = Z.to_nat w) b.

(** What [randrange(height)] and [randrange(width)] can answer. *)
Definition in_range (h w : Z) (c : Cell) : Prop :=
  (0 ≤ c.1 < h) ∧ (0 ≤ c.2 < w).

(** Every cell of an [h] by [w] board, row by row. *)
Definition all_cells (h w : Z) : list Cell :=
  (i ← range 0 h; j ← range 0 w; [(i, j)]).

End Minesweeper.

(** ** Truthful play

    [holds M s]: the sentence is true of the mine set [M].  [sound M a]:
    everything the agent believes is true of [M]. *)
Definition holds (M : gset Cell) (s : Sentence) : Prop :=
  count s = Z.of_nat (size (cells s ∩ M)).

Definition sound (M : gset Cell) (a : MinesweeperAI) : Prop :=
  Forall (holds M) (knowledge a) ∧ mines a ⊆ M ∧ safes a ## M.

(** The states of an agent that is created for the board [g] and is told,
    for cells that are not mines, the count that [g] gives. *)
Inductive played (g : Minesweeper.t) : MinesweeperAI → Prop :=
| played_init :
    played g (init (Minesweeper.height g) (Minesweeper.width g))
| played_reveal fuel a cell n a' :
    played g a → cell ∉ Minesweeper.mines g →
    Minesweeper.nearby_mines g cell = Some n →
    add_knowledge fuel a cell n = Some (Returned a') →
    played g a'.

(** A 2 x 3 board with its one mine at (1,0), as [Minesweeper(2, 3, 1)]
    builds it when the first draw is (1,0). *)
Definition small_game : Minesweeper.t :=
  {| Minesweeper.height := 2; Minesweeper.width := 3;
     Minesweeper.mines := {[ (1, 0) ]};
     Minesweeper.board := [ [false; false; false]; [true; false; false] ];
     Minesweeper.mines_found := ∅ |}.

(** ** Basic facts about the sentence operations *)

Lemma eqb_eq (s t : Sentence) : Sentence.eqb s t = true ↔ s = t.
Proof.
  unfold Sentence.eqb. rewrite andb_true_iff, !bool_decide_eq_true.
  destruct s, t; simpl. split; [intros [-> ->]; done | intros [= -> ->]; done].
Qed.

Lemma mem_elem_of (s : Sentence) (K : list Sentence) : mem s K = true ↔ s ∈ K.
Proof.
  unfold mem. induction K as [|t K IH]; simpl.
  - split; [done | intros H; inversion H].
  - rewrite orb_true_iff, IH, eqb_eq, elem_of_cons. done.
Qed.

Lemma mem_not_elem_of (s : Sentence) (K : list Sentence) : mem s K = false ↔ s ∉ K.
Proof. rewrite <- mem_elem_of. destruct (mem s K); split; congruence. Qed.

Lemma elem_of_neighbors (a : MinesweeperAI) (cell : Cell) (i j : Z) :
  (i, j) ∈ neighbors a cell ↔
    (cell.1 - 1 ≤ i ≤ cell.1 + 1) ∧ (cell.2 - 1 ≤ j ≤ cell.2 + 1) ∧
    (i, j) ≠ cell ∧ (0 ≤ i < height a) ∧ (0 ≤ j < width a).
Proof.
  unfold neighbors, range. rewrite elem_of_list_to_set, list_elem_of_bind.
  split.
  - intros (i' & Hin & Hi'). apply elem_of_seqZ in Hi'.
    apply list_elem_of_bind in Hin as (j' & Hin & Hj'). apply elem_of_seqZ in Hj'.
    case_decide as Hd; [|inversion Hin].
    apply list_elem_of_singleton in Hin. injection Hin as -> ->.
    destruct Hd as (? & ? & ?). repeat split; try done; lia.
  - intros (Hi & Hj & Hne & Hh & Hw). exists i. split.
    + apply list_elem_of_bind. exists j. split; [|apply elem_of_seqZ; lia].
      rewrite decide_True by done. by apply list_elem_of_singleton.
    + apply elem_of_seqZ. lia.
Qed.

(** ** The sentence constructor *)

(** C6 (as amended): the constructor validates nothing.  For every cell set
    and every integer it yields the sentence holding exactly that set and
    that count, whether or not the count lies between 0 and the number of
    cells. *)
Theorem Sentence_init_unchecked (cs : gset Cell) (n : Z) :
  ∃ s, Sentence.init cs n = s ∧ cells s = cs ∧ count s = n ∧
       Sentence.len s = Z.of_nat (size cs).
Proof. exists (Sentence.init cs n). done. Qed.

(** C6 fails as stated: a sentence of one cell and count 5 is constructed,
    and so is one with a negative count. *)
Lemma Sentence_init_out_of_range :
  Sentence.len (Sentence.init {[ (0, 0) ]} 5) = 1 ∧
  count (Sentence.init {[ (0, 0) ]} 5) = 5 ∧
  count (Sentence.init ∅ (-1)) = -1.
Proof. by vm_compute. Qed.

(** ** Marking a mine: the raise comes after the mutation *)

Lemma Sentence_mark_mine_raises (s : Sentence) (c : Cell) :
  c ∈ cells s → count s = 0 →
  Sentence.mark_mine s c = Raised ValueError {| cells := cells s ∖ {[c]}; count := -1 |}.
Proof.
  intros Hin Hc. unfold Sentence.mark_mine, Sentence.remove_mine.
  destruct (decide (c ∈ cells s)) as [_|Hn]; [|done]. simpl. rewrite Hc.
  by rewrite decide_True by lia.
Qed.

Lemma mark_mine_each_app_raises (c : Cell) (pre post : list Sentence) (s s' : Sentence) :
  Forall (λ t, 0 ≤ count (Sentence.remove_mine t c)) pre →
  Sentence.mark_mine s c = Raised ValueError s' →
  mark_mine_each c (pre ++ s :: post) =
    Raised ValueError (((λ t, Sentence.remove_mine t c) <$> pre) ++ s' :: post).
Proof.
  intros Hpre Hs. induction Hpre as [|t pre Ht Hpre IH]; simpl.
  - by rewrite Hs.
  - unfold Sentence.mark_mine at 1. simpl. rewrite decide_False by lia.
    by rewrite IH.
Qed.

(** C10: when [Sentence.mark_mine] is called on a sentence that holds the
    cell and has count 0, the result is a raise in a state where the cell
    has been removed and the count is -1.  When this sentence is met by the
    agent's [mark_mine], the raise leaves the cell in [mines], every earlier
    sentence updated, the raising sentence mutated, and the later sentences
    as they were. *)
Theorem mark_mine_not_atomic (a : MinesweeperAI) (c : Cell)
    (pre post : list Sentence) (s : Sentence) :
  knowledge a = pre ++ s :: post →
  Forall (λ t, 0 ≤ count (Sentence.remove_mine t c)) pre →
  c ∈ cells s → count s = 0 →
  let s' := {| cells := cells s ∖ {[c]}; count := -1 |} in
  Sentence.mark_mine s c = Raised ValueError s' ∧
  ∃ a', mark_mine a c = Raised ValueError a' ∧
        mines a' = {[c]} ∪ mines a ∧
        knowledge a' = ((λ t, Sentence.remove_mine t c) <$> pre) ++ s' :: post ∧
        safes a' = safes a ∧ moves_made a' = moves_made a.
Proof.
  intros HK Hpre Hin Hc s'.
  pose proof (Sentence_mark_mine_raises s c Hin Hc) as Hs.
  split; [exact Hs|].
  unfold mark_mine. simpl. rewrite HK.
  rewrite (mark_mine_each_app_raises c pre post s s' Hpre Hs).
  eexists. split; [reflexivity|]. simpl. done.
Qed.

Lemma mark_mine_not_atomic_witness :
  let s1 := {| cells := {[ (0, 1); (1, 1) ]}; count := 1 |} in
  let s2 := {| cells := {[ (1, 1) ]}; count := 0 |} in
  let s3 := {| cells := {[ (1, 1); (2, 2) ]}; count := 2 |} in
  let a := set_knowledge (init 3 3) [s1; s2; s3] in
  ∃ a', mark_mine a (1, 1) = Raised ValueError a' ∧
        mines a' = {[ (1, 1) ]} ∪ ∅ ∧
        knowledge a' =
          [ {| cells := {[ (0, 1); (1, 1) ]} ∖ {[ (1, 1) ]}; count := 1 - 1 |};
            {| cells := {[ (1, 1) ]} ∖ {[ (1, 1) ]}; count := -1 |};
            s3 ].
Proof.
  intros s1 s2 s3 a.
  destruct (mark_mine_not_atomic a (1, 1) [s1] [s3] s2) as (_ & a' & H1 & H2 & H3 & _).
  - reflexivity.
  - repeat constructor. by vm_compute.
  - by vm_compute.
  - reflexivity.
  - exists a'. split; [exact H1|]. split; [exact H2|]. rewrite H3.
    simpl. unfold Sentence.remove_mine. rewrite decide_True by (by vm_compute). done.
Defined.

(** ** Contradictory marks *)

Lemma mark_mine_sets (a : MinesweeperAI) (c : Cell) :
  mines (state_of (mark_mine a c)) = {[c]} ∪ mines a ∧
  safes (state_of (mark_mine a c)) = safes a ∧
  moves_made (state_of (mark_mine a c)) = moves_made a ∧
  height (state_of (mark_mine a c)) = height a ∧
  width (state_of (mark_mine a c)) = width a.
Proof. unfold mark_mine. by destruct (mark_mine_each c (knowledge (add_mine a c))). Qed.

Lemma mark_mine_each_absent (c : Cell) (K : list Sentence) :
  Forall (λ s, 0 ≤ count s ∧ c ∉ cells s) K → mark_mine_each c K = Returned K.
Proof.
  induction 1 as [|s K [Hs Hc] _ IH]; simpl; [done|].
  unfold Sentence.mark_mine, Sentence.remove_mine.
  rewrite (decide_False (P := c ∈ cells s)) by done.
  rewrite decide_False by lia. by rewrite IH.
Qed.

Lemma mark_safe_removes (a : MinesweeperAI) (c : Cell) :
  Forall (λ s, 0 ≤ count s) (knowledge a) →
  Forall (λ s, 0 ≤ count s ∧ c ∉ cells s) (knowledge (mark_safe a c)).
Proof.
  intros H. simpl. apply Forall_fmap. eapply Forall_impl; [exact H|].
  intros s Hs. simpl. unfold Sentence.mark_safe. case_decide; simpl; [|done].
  split; [done|]. set_solver.
Qed.

(** C5 (as amended): [mark_mine] adds the cell to [mines] and [mark_safe]
    adds it to [safes], neither looks at the other set.  After
    [mark_mine(c)] has returned, [mark_safe(c)] returns with [c] in both
    sets; after [mark_safe(c)], on a knowledge base without negative counts,
    [mark_mine(c)] returns with [c] in both sets.  Disjointness of the two
    sets is kept only by a call whose cell is not in the other set. *)
Theorem mark_both_ways (a : MinesweeperAI) (c : Cell) :
  (∀ a1, mark_mine a c = Returned a1 →
         c ∈ mines (mark_safe a1 c) ∧ c ∈ safes (mark_safe a1 c)) ∧
  (Forall (λ s, 0 ≤ count s) (knowledge a) →
   ∃ a2, mark_mine (mark_safe a c) c = Returned a2 ∧ c ∈ mines a2 ∧ c ∈ safes a2) ∧
  (mines a ## safes a → c ∉ mines a → mines (mark_safe a c) ## safes (mark_safe a c)) ∧
  (mines a ## safes a → c ∉ safes a →
   mines (state_of (mark_mine a c)) ## safes (state_of (mark_mine a c))).
Proof.
  repeat split.
  - pose proof (mark_mine_sets a c) as (Hm & _). rewrite H in Hm. simpl in *.
    rewrite Hm. set_solver.
  - simpl. set_solver.
  - intros HK. pose proof (mark_safe_removes a c HK) as Hrm.
    pose proof (mark_mine_sets (mark_safe a c) c) as (Hm & Hs & _).
    unfold mark_mine in *. simpl in *.
    rewrite (mark_mine_each_absent c _ Hrm) in *. simpl in *.
    eexists. split; [reflexivity|]. simpl. set_solver.
  - simpl. set_solver.
  - pose proof (mark_mine_sets a c) as (-> & -> & _). set_solver.
Qed.

Lemma mark_both_ways_witness :
  ∃ a2, mark_mine (mark_safe middle_once (1, 1)) (1, 1) = Returned a2 ∧
        (1, 1) ∈ mines a2 ∧ (1, 1) ∈ safes a2.
Proof.
  destruct (mark_both_ways middle_once (1, 1)) as (_ & H & _).
  apply H. repeat constructor. by vm_compute.
Defined.

(** C5 fails as stated: on a new agent both orders return normally and
    leave (0,0) in [mines] and in [safes]. *)
Lemma mark_both_ways_overlap :
  ∃ a1 a2,
    mark_mine (init 3 3) (0, 0) = Returned a1 ∧
    (0, 0) ∈ mines (mark_safe a1 (0, 0)) ∩ safes (mark_safe a1 (0, 0)) ∧
    mark_mine (mark_safe (init 3 3) (0, 0)) (0, 0) = Returned a2 ∧
    (0, 0) ∈ mines a2 ∩ safes a2.
Proof.
  eexists _, _. split; [reflexivity|]. split; [by vm_compute|].
  split; [reflexivity|]. by vm_compute.
Qed.

(** ** Move selection *)

(** C8: [make_safe_move] returns a cell of [safes] that is not in
    [moves_made] whenever there is one, returns nothing exactly when there
    is none, and leaves the agent as it was. *)
Theorem make_safe_move_spec (a : MinesweeperAI) :
  (make_safe_move a).2 = a ∧
  (∀ c, (make_safe_move a).1 = Some c → c ∈ safes a ∧ c ∉ moves_made a) ∧
  ((∃ c, c ∈ safes a ∧ c ∉ moves_made a) → ∃ c, (make_safe_move a).1 = Some c) ∧
  ((make_safe_move a).1 = None ↔ ¬ ∃ c, c ∈ safes a ∧ c ∉ moves_made a).
Proof.
  unfold make_safe_move. simpl.
  assert (Hsome : ∀ c, find (λ c, bool_decide (c ∉ moves_made a)) (elements (safes a)) = Some c →
                       c ∈ safes a ∧ c ∉ moves_made a).
  { intros c Hc. apply find_some in Hc as [Hin Hb].
    apply list_elem_of_In, elem_of_elements in Hin.
    by apply bool_decide_eq_true in Hb. }
  assert (Hnone : find (λ c, bool_decide (c ∉ moves_made a)) (elements (safes a)) = None →
                  ¬ ∃ c, c ∈ safes a ∧ c ∉ moves_made a).
  { intros Hn (c & Hin & Hout).
    apply elem_of_elements, list_elem_of_In in Hin.
    pose proof (find_none _ _ Hn c Hin) as Hb. simpl in Hb.
    by apply bool_decide_eq_false in Hb. }
  split; [done|]. split; [exact Hsome|]. split.
  - intros Hex. destruct (find _ _) as [c|] eqn:Hf; [by exists c|].
    by destruct (Hnone eq_refl).
  - split; [exact Hnone|]. intros Hno.
    destruct (find _ _) as [c|] eqn:Hf; [|done].
    destruct Hno. exists c. by apply Hsome.
Qed.

Lemma make_safe_move_spec_witness :
  ∃ c, (make_safe_move corner_revealed).1 = Some c.
Proof.
  destruct (make_safe_move_spec corner_revealed) as (_ & _ & H & _).
  apply H. exists (1, 1). split.
  - apply (bool_decide_unpack _). by vm_compute.
  - apply (bool_decide_unpack _). by vm_compute.
Defined.

Lemma elem_of_choices (a : MinesweeperAI) (c : Cell) :
  c ∈ choices a ↔
    (0 ≤ c.1 < height a) ∧ (0 ≤ c.2 < width a) ∧ (c ∉ moves_made a) ∧ (c ∉ mines a).
Proof.
  unfold choices, range. rewrite list_elem_of_bind. split.
  - intros (i & Hin & Hi). apply elem_of_seqZ in Hi.
    apply list_elem_of_bind in Hin as (j & Hin & Hj). apply elem_of_seqZ in Hj.
    case_decide as Hd; [|inversion Hin].
    apply list_elem_of_singleton in Hin. subst c. simpl.
    destruct Hd. repeat split; try done; lia.
  - destruct c as [i j]. simpl. intros (Hi & Hj & Hmv & Hmn). exists i. split.
    + apply list_elem_of_bind. exists j. split; [|apply elem_of_seqZ; lia].
      rewrite decide_True by done. by apply list_elem_of_singleton.
    + apply elem_of_seqZ. lia.
Qed.

Section RandomMoveFacts.
Variable randbelow : nat → nat.
Hypothesis randbelow_lt : ∀ n, (0 < n)%nat → (randbelow n < n)%nat.

(** C9: [make_random_move] returns a board cell that is neither in
    [moves_made] nor in [mines], returns nothing exactly when no such cell
    exists, and leaves the agent as it was. *)
Theorem make_random_move_spec (a : MinesweeperAI) :
  (make_random_move randbelow a).2 = a ∧
  (∀ c, (make_random_move randbelow a).1 = Some c →
        (0 ≤ c.1 < height a) ∧ (0 ≤ c.2 < width a) ∧
        (c ∉ moves_made a) ∧ (c ∉ mines a)) ∧
  ((make_random_move randbelow a).1 = None ↔
     ¬ ∃ c, (0 ≤ c.1 < height a) ∧ (0 ≤ c.2 < width a) ∧
            (c ∉ moves_made a) ∧ (c ∉ mines a)).
Proof.
  unfold make_random_move.
  pose proof (elem_of_choices a) as Hch.
  destruct (choices a) as [|c0 cs] eqn:Hcs; simpl.
  - split; [done|]. split; [done|]. split; [|done].
    intros _ (c & Hc). apply Hch in Hc. inversion Hc.
  - split; [done|]. split.
    + intros c Hc. apply Hch. by eapply list_elem_of_lookup_2.
    + split.
      * intros Hn. apply lookup_ge_None in Hn.
        pose proof (randbelow_lt (length (c0 :: cs))) as Hlt.
        simpl in *. lia.
      * intros Hno. destruct Hno. exists c0. apply Hch. by left.
Qed.
End RandomMoveFacts.

Lemma make_random_move_spec_witness :
  (make_random_move (λ n, Nat.pred n) corner_revealed).1 = Some (2, 2) ∧
  (make_random_move (λ n, Nat.pred n) corner_revealed).2 = corner_revealed.
Proof.
  assert (Hlt : ∀ n, (0 < n)%nat → (Nat.pred n < n)%nat) by lia.
  destruct (make_random_move_spec (λ n, Nat.pred n) Hlt corner_revealed) as (H2 & _ & _).
  split; [by vm_compute | exact H2].
Defined.

(** ** Clean-up and removal of duplicates *)

Lemma cleanup_Forall (K : list Sentence) :
  Forall (λ s, 0 ≤ count s ∧ cells s ≠ ∅) (cleanup K).
Proof.
  apply Forall_forall. intros s Hs. unfold cleanup in Hs.
  apply list_elem_of_filter in Hs as [Hk Hs].
  apply list_elem_of_filter in Hs as [Hc _].
  unfold keeps, has_cells in *. split; [lia | done].
Qed.

Lemma cleanup_id (K : list Sentence) :
  Forall (λ s, 0 ≤ count s ∧ cells s ≠ ∅) K → cleanup K = K.
Proof.
  unfold cleanup. induction 1 as [|s K [Hn Hc] _ IH]; [done|].
  rewrite (filter_cons_True has_cells) by done.
  assert (Hk : keeps s).
  { unfold keeps. destruct (decide (0 < count s)); [by left|].
    right. split; [lia | done]. }
  rewrite (filter_cons_True keeps) by done.
  by rewrite IH.
Qed.

Section DedupFrom.
Lemma dedup_from_Forall (P : Sentence → Prop) (K acc : list Sentence) :
  Forall P acc → Forall P K → Forall P (dedup_from acc K).
Proof.
  revert acc. induction K as [|s K IH]; intros acc Hacc HK; simpl; [done|].
  apply Forall_cons in HK as [Hs HK]. apply IH; [|done].
  destruct (mem s acc); [done|]. apply Forall_app. by repeat constructor.
Qed.

Lemma dedup_from_NoDup (K acc : list Sentence) :
  NoDup acc → NoDup (dedup_from acc K).
Proof.
  revert acc. induction K as [|s K IH]; intros acc Hacc; simpl; [done|].
  apply IH. destruct (mem s acc) eqn:Hm; [done|].
  apply mem_not_elem_of in Hm. apply NoDup_app. repeat split; [done| |].
  - intros x Hx Hx'. apply list_elem_of_singleton in Hx'. by subst.
  - apply NoDup_singleton.
Qed.

Lemma dedup_from_id (K acc : list Sentence) :
  NoDup (acc ++ K) → dedup_from acc K = acc ++ K.
Proof.
  revert acc. induction K as [|s K IH]; intros acc Hnd; simpl.
  - by rewrite app_nil_r.
  - assert (Hs : mem s acc = false).
    { apply mem_not_elem_of. apply NoDup_app in Hnd as (_ & Hd & _).
      intros Hin. apply (Hd s Hin). by left. }
    rewrite Hs. rewrite (cons_middle s acc K) in *. rewrite app_assoc in *.
    by apply IH.
Qed.
End DedupFrom.

Lemma dedup_Forall (P : Sentence → Prop) (K : list Sentence) :
  Forall P K → Forall P (dedup K).
Proof. intros. by apply dedup_from_Forall. Qed.

Lemma dedup_NoDup (K : list Sentence) : NoDup (dedup K).
Proof. apply dedup_from_NoDup. constructor. Qed.

Lemma dedup_id (K : list Sentence) : NoDup K → dedup K = K.
Proof. intros. by apply (dedup_from_id K []). Qed.

Lemma retained_Forall (a : MinesweeperAI) :
  Forall (λ s, 0 ≤ count s ∧ cells s ≠ ∅) (retained a).
Proof. apply dedup_Forall, cleanup_Forall. Qed.

(** ** The subset rule *)

(** What one pair can do to the knowledge base. *)
Lemma infer_cases (s1 s2 : Sentence) (K : list Sentence) :
  infer s1 s2 K = K ∨
  ∃ new, infer s1 s2 K = K ++ [new] ∧ (new ∉ K) ∧
         s1 ≠ s2 ∧ cells s1 ⊆ cells s2 ∧
         cells new = cells s2 ∖ cells s1 ∧ count new = count s2 - count s1 ∧
         cells new ≠ ∅ ∧ 0 ≤ count new.
Proof.
  unfold infer. destruct (Sentence.eqb s1 s2) eqn:He; simpl; [by left|].
  case_decide as Hsub; [|by left]. case_decide as Hc; [|by left].
  destruct (mem _ K) eqn:Hm; [by left|]. right.
  apply mem_not_elem_of in Hm. destruct Hc as [Hne Hcnt].
  eexists. split; [reflexivity|]. repeat split; try done.
  intros ->. rewrite (proj2 (eqb_eq s2 s2)) in He by done. done.
Qed.

Lemma infer_prefix (s1 s2 : Sentence) (K : list Sentence) :
  K `prefix_of` infer s1 s2 K.
Proof.
  destruct (infer_cases s1 s2 K) as [-> | (new & -> & _)]; [done|].
  by apply prefix_app_r.
Qed.

(** A pair that meets the conditions of the rule leaves its difference in
    the knowledge base. *)
Lemma infer_derives (s1 s2 : Sentence) (K : list Sentence) :
  s1 ≠ s2 → cells s1 ⊆ cells s2 → cells s2 ∖ cells s1 ≠ ∅ →
  0 ≤ count s2 - count s1 →
  Sentence.init (cells s2 ∖ cells s1) (count s2 - count s1) ∈ infer s1 s2 K.
Proof.
  intros Hne Hsub Hc Hn. unfold infer.
  destruct (Sentence.eqb s1 s2) eqn:He; [by apply eqb_eq in He|]. simpl.
  rewrite decide_True by done. rewrite decide_True by done.
  destruct (mem _ K) eqn:Hm; [by apply mem_elem_of in Hm|].
  apply elem_of_app. right. by apply list_elem_of_singleton.
Qed.

Lemma subset_loop_more_fuel (fuel fuel' : nat) (K K' : list Sentence) (i j : nat) :
  subset_loop fuel K i j = Some K' → (fuel ≤ fuel')%nat →
  subset_loop fuel' K i j = Some K'.
Proof.
  revert fuel' K i j. induction fuel as [|fuel IH]; intros fuel' K i j H Hle; [done|].
  destruct fuel' as [|fuel']; [lia|]. simpl in *.
  destruct (K !! i) as [s1|]; [|done].
  destruct (K !! j) as [s2|]; apply IH; (done || lia).
Qed.

(** A property of the list that every appended sentence keeps is kept by
    the whole loop. *)
Lemma subset_loop_invariant (P : list Sentence → Prop) :
  (∀ s1 s2 K, s1 ∈ K → s2 ∈ K → P K → P (infer s1 s2 K)) →
  ∀ fuel K i j K', subset_loop fuel K i j = Some K' → P K → P K'.
Proof.
  intros Hstep fuel. induction fuel as [|fuel IH]; intros K i j K' H HP; [done|].
  simpl in H. destruct (K !! i) as [s1|] eqn:Hi; [|by injection H as <-].
  destruct (K !! j) as [s2|] eqn:Hj; [|by eapply IH].
  eapply IH; [exact H|]. apply Hstep; [| |done]; by eapply list_elem_of_lookup_2.
Qed.

Lemma subset_loop_prefix (fuel : nat) (K K' : list Sentence) (i j : nat) :
  subset_loop fuel K i j = Some K' → K `prefix_of` K'.
Proof.
  intros H.
  refine (subset_loop_invariant (λ L, K `prefix_of` L) _ fuel K i j K' H _); [|done].
  intros s1 s2 L _ _ HL. etrans; [exact HL|]. apply infer_prefix.
Qed.

Lemma subset_loop_Forall (fuel : nat) (K K' : list Sentence) (i j : nat) :
  subset_loop fuel K i j = Some K' →
  Forall (λ s, 0 ≤ count s ∧ cells s ≠ ∅) K →
  Forall (λ s, 0 ≤ count s ∧ cells s ≠ ∅) K'.
Proof.
  apply subset_loop_invariant. intros s1 s2 L _ _ HL.
  destruct (infer_cases s1 s2 L) as [-> | (new & -> & _ & _ & _ & _ & _ & ? & ?)]; [done|].
  apply Forall_app. by repeat constructor.
Qed.

Lemma subset_loop_NoDup (fuel : nat) (K K' : list Sentence) (i j : nat) :
  subset_loop fuel K i j = Some K' → NoDup K → NoDup K'.
Proof.
  apply subset_loop_invariant. intros s1 s2 L _ _ HL.
  destruct (infer_cases s1 s2 L) as [-> | (new & -> & Hnew & _)]; [done|].
  apply NoDup_app. repeat split; [done| |apply NoDup_singleton].
  intros x Hx Hx'. apply list_elem_of_singleton in Hx'. by subst.
Qed.


(** ** Termination of step 5 *)

Lemma elem_of_subsets (l : list Cell) (X : gset Cell) :
  X ⊆ list_to_set l → X ∈ subsets l.
Proof.
  revert X. induction l as [|c l IH]; intros X HX; simpl in *.
  - apply list_elem_of_singleton. set_solver.
  - apply elem_of_app. destruct (decide (c ∈ X)) as [Hc|Hc].
    + right. apply list_elem_of_fmap. exists (X ∖ {[c]}). split.
      * apply set_eq. intros x. rewrite elem_of_union, elem_of_singleton,
          elem_of_difference, elem_of_singleton.
        destruct (decide (x = c)); naive_solver.
      * apply IH. set_solver.
    + left. apply IH. set_solver.
Qed.

Lemma elem_of_universe (U : gset Cell) (M : Z) (s : Sentence) :
  cells s ⊆ U → 0 ≤ count s ≤ M → s ∈ universe U M.
Proof.
  intros HU HM. unfold universe. apply list_elem_of_bind. exists (cells s). split.
  - apply list_elem_of_bind. exists (count s). split.
    + destruct s. by apply list_elem_of_singleton.
    + apply elem_of_seqZ. lia.
  - apply elem_of_subsets. intros x Hx. apply elem_of_list_to_set, elem_of_elements.
    by apply HU.
Qed.

Lemma filter_length_lt {A} (P Q : A → Prop) `{!∀ x, Decision (P x)}
    `{!∀ x, Decision (Q x)} (l : list A) (x : A) :
  (∀ y, P y → Q y) → x ∈ l → Q x → ¬ P x →
  (length (filter P l) < length (filter Q l))%nat.
Proof.
  intros HPQ Hx HQ HP.
  assert (Hle : ∀ k : list A, (length (filter P k) ≤ length (filter Q k))%nat).
  { induction k as [|y k IH]; [done|]. rewrite !filter_cons.
    destruct (decide (P y)) as [Hy|Hy].
    - rewrite decide_True by auto. simpl. lia.
    - destruct (decide (Q y)); simpl; lia. }
  induction l as [|y l IH]; [by apply elem_of_nil in Hx|].
  rewrite !filter_cons. apply elem_of_cons in Hx as [<-|Hx].
  - rewrite decide_False by done. rewrite decide_True by done. simpl.
    specialize (Hle l). lia.
  - specialize (IH Hx). destruct (decide (P y)) as [Hy|Hy].
    + rewrite decide_True by auto. simpl. lia.
    + destruct (decide (Q y)); simpl; lia.
Qed.

Lemma missing_snoc (U : gset Cell) (M : Z) (K : list Sentence) (new : Sentence) :
  new ∈ universe U M → new ∉ K →
  (missing U M (K ++ [new]) < missing U M K)%nat.
Proof.
  intros Hu Hnew. unfold missing. apply (filter_length_lt _ _ _ new); [|done..|].
  - intros y Hy Hin. apply Hy. apply elem_of_app. by left.
  - intros Hn. apply Hn. apply elem_of_app. right. by apply list_elem_of_singleton.
Qed.

Lemma bounded_exists (K : list Sentence) :
  Forall (λ s, 0 ≤ count s) K → ∃ U M, bounded U M K.
Proof.
  induction 1 as [|s K Hs _ (U & M & IH)].
  - exists ∅, 0. constructor.
  - exists (cells s ∪ U), (Z.max (count s) M). constructor.
    + split; [set_solver | lia].
    + eapply Forall_impl; [exact IH|]. intros t [Ht1 Ht2]. split; [set_solver | lia].
Qed.

Lemma bounded_lookup (U : gset Cell) (M : Z) (K : list Sentence) (i : nat) (s : Sentence) :
  bounded U M K → K !! i = Some s → cells s ⊆ U ∧ 0 ≤ count s ≤ M.
Proof. intros HB Hi. eapply (Forall_lookup_1 _ _ _ _ HB Hi). Qed.

Lemma subset_loop_terminates_bounded (U : gset Cell) (M : Z) (m : nat) :
  ∀ K, bounded U M K → missing U M K = m →
  ∀ i j, ∃ fuel K', subset_loop fuel K i j = Some K'.
Proof.
  induction m as [m IHm] using lt_wf_ind. intros K HB Hm i.
  remember (length K - i)%nat as p eqn:Hp. revert i Hp.
  induction p as [p IHp] using lt_wf_ind. intros i Hp j.
  remember (length K - j)%nat as q eqn:Hq. revert j Hq.
  induction q as [q IHq] using lt_wf_ind. intros j Hq.
  destruct (K !! i) as [s1|] eqn:Hi.
  2:{ exists 1%nat, K. simpl. by rewrite Hi. }
  pose proof (lookup_lt_Some _ _ _ Hi) as Hilt.
  destruct (K !! j) as [s2|] eqn:Hj.
  - pose proof (lookup_lt_Some _ _ _ Hj) as Hjlt.
    destruct (infer_cases s1 s2 K)
      as [Heq | (new & Heq & Hnew & _ & _ & Hcells & Hcount & _ & Hpos)].
    + destruct (IHq (length K - S j)%nat ltac:(lia) (S j) eq_refl) as (fuel & K' & Hrun).
      exists (S fuel), K'. simpl. by rewrite Hi, Hj, Heq.
    + destruct (bounded_lookup U M K i s1 HB Hi) as [_ [Hs1 _]].
      destruct (bounded_lookup U M K j s2 HB Hj) as [Hs2 [_ Hs2M]].
      assert (Hnb : cells new ⊆ U ∧ 0 ≤ count new ≤ M).
      { split; [set_solver | lia]. }
      assert (HB' : bounded U M (K ++ [new])).
      { apply Forall_app. split; [done|]. by apply Forall_singleton. }
      assert (Hlt : (missing U M (K ++ [new]) < m)%nat).
      { subst m. apply missing_snoc; [|done].
        destruct Hnb. by apply elem_of_universe. }
      destruct (IHm _ Hlt (K ++ [new]) HB' eq_refl i (S j)) as (fuel & K' & Hrun).
      exists (S fuel), K'. simpl. by rewrite Hi, Hj, Heq.
  - destruct (IHp (length K - S i)%nat ltac:(lia) (S i) eq_refl 0%nat) as (fuel & K' & Hrun).
    exists (S fuel), K'. simpl. by rewrite Hi, Hj.
Qed.

(** Step 5 terminates on every knowledge base without negative counts,
    which is what the clean-up leaves. *)
Lemma subset_loop_terminates (K : list Sentence) (i j : nat) :
  Forall (λ s, 0 ≤ count s) K → ∃ fuel K', subset_loop fuel K i j = Some K'.
Proof.
  intros HK. destruct (bounded_exists K HK) as (U & M & HB).
  by eapply subset_loop_terminates_bounded.
Qed.

Lemma inference_pass_terminates (a : MinesweeperAI) :
  ∃ fuel o, inference_pass fuel a = Some o.
Proof.
  unfold inference_pass. destruct (conclude a) as [a1|e a1]; [|by exists 0%nat; eauto].
  destruct (subset_loop_terminates (retained a1) 0 0) as (fuel & K' & HK').
  - eapply Forall_impl; [apply retained_Forall|]. by intros s [? _].
  - exists fuel. rewrite HK'. simpl. eauto.
Qed.

Lemma add_knowledge_terminates (a : MinesweeperAI) (cell : Cell) (n : Z) :
  ∃ fuel o, add_knowledge fuel a cell n = Some o.
Proof. apply inference_pass_terminates. Qed.

(** Two budgets that both suffice give the same outcome. *)
Lemma subset_loop_fuel_irrelevant (f1 f2 : nat) (K K1 K2 : list Sentence) (i j : nat) :
  subset_loop f1 K i j = Some K1 → subset_loop f2 K i j = Some K2 → K1 = K2.
Proof.
  intros H1 H2.
  apply (subset_loop_more_fuel _ (f1 `max` f2)%nat) in H1; [|lia].
  apply (subset_loop_more_fuel _ (f1 `max` f2)%nat) in H2; [|lia].
  congruence.
Qed.

Lemma add_knowledge_fuel_irrelevant (f1 f2 : nat) (a : MinesweeperAI) (cell : Cell)
    (n : Z) (o1 o2 : outcome MinesweeperAI) :
  add_knowledge f1 a cell n = Some o1 → add_knowledge f2 a cell n = Some o2 → o1 = o2.
Proof.
  unfold add_knowledge, inference_pass.
  destruct (conclude (observe a cell n)) as [a1|e a1]; [|congruence].
  destruct (subset_loop f1 _ 0 0) as [K1|] eqn:H1; [|done].
  destruct (subset_loop f2 _ 0 0) as [K2|] eqn:H2; [|done].
  simpl. intros [= <-] [= <-]. by rewrite (subset_loop_fuel_irrelevant _ _ _ _ _ _ _ H1 H2).
Qed.

(** ** The example states are reached by calls that return *)




Lemma row_revealed_run :
  ∃ a1, add_knowledge 5 (init 2 8) (0, 1) 1 = Some (Returned a1) ∧
        add_knowledge 10 a1 (0, 2) 2 = Some (Returned row_revealed).
Proof.
  exists {| height := 2; width := 8; moves_made := {[ (0, 1) ]}; mines := ∅;
            safes := {[ (0, 1) ]};
            knowledge := [ {| cells := {[ (0, 0); (0, 2); (1, 0); (1, 1); (1, 2) ]};
                              count := 1 |} ] |}.
  split; by vm_compute.
Qed.

Lemma row_hinted_run :
  mark_safe (mark_safe (mark_safe (mark_safe row_revealed (0, 0)) (1, 0)) (0, 1)) (0, 3)
    = row_hinted.
Proof. by vm_compute. Qed.

Lemma row_hinted_reachable : reachable row_hinted.
Proof.
  rewrite <- row_hinted_run. destruct row_revealed_run as (a1 & H1 & H2).
  do 4 apply reach_mark_safe.
  eapply reach_add_knowledge; [|exact H2].
  eapply reach_add_knowledge; [|exact H1].
  apply reach_init.
Qed.

Lemma row_derived_run :
  add_knowledge 30 row_hinted (0, 6) 1 = Some (Returned row_derived).
Proof. by vm_compute. Qed.

Lemma two_reveals_run :
  add_knowledge 5 (init 2 3) (0, 0) 1 = Some (Returned one_reveal) ∧
  add_knowledge 20 one_reveal (0, 1) 1 = Some (Returned two_reveals).
Proof. split; by vm_compute. Qed.

(** ** What a returning call leaves in the knowledge base *)

Lemma mark_mine_each_returned (c : Cell) (K K' : list Sentence) :
  mark_mine_each c K = Returned K' →
  K' = (λ s, Sentence.remove_mine s c) <$> K ∧ Forall (λ s, 0 ≤ count s) K'.
Proof.
  revert K'. induction K as [|s K IH]; intros K' H; simpl in H.
  - injection H as <-. by split.
  - unfold Sentence.mark_mine in H. case_decide as Hneg; [done|].
    destruct (mark_mine_each c K) as [K1|e K1]; [|done].
    injection H as <-. destruct (IH K1 eq_refl) as [-> HF].
    split; [done|]. constructor; [lia | done].
Qed.

Lemma mark_mine_returned (a a' : MinesweeperAI) (c : Cell) :
  mark_mine a c = Returned a' →
  a' = set_knowledge (add_mine a c) ((λ s, Sentence.remove_mine s c) <$> knowledge a) ∧
  Forall (λ s, 0 ≤ count s) (knowledge a').
Proof.
  unfold mark_mine. simpl.
  destruct (mark_mine_each c (knowledge a)) as [K|e K] eqn:HK; [|done].
  intros [= <-]. by destruct (mark_mine_each_returned c _ _ HK) as [-> HF].
Qed.

Lemma inference_pass_returned (fuel : nat) (a a' : MinesweeperAI) :
  inference_pass fuel a = Some (Returned a') →
  ∃ a1 K, conclude a = Returned a1 ∧
          subset_loop fuel (retained a1) 0 0 = Some K ∧ a' = set_knowledge a1 K.
Proof.
  unfold inference_pass. destruct (conclude a) as [a1|e a1]; [|done].
  destruct (subset_loop fuel (retained a1) 0 0) as [K|] eqn:HK; [|done].
  simpl. intros [= <-]. by exists a1, K.
Qed.

Lemma inference_pass_knowledge (fuel : nat) (a a' : MinesweeperAI) :
  inference_pass fuel a = Some (Returned a') →
  Forall (λ s, 0 ≤ count s ∧ cells s ≠ ∅) (knowledge a') ∧ NoDup (knowledge a').
Proof.
  intros H. apply inference_pass_returned in H as (a1 & K & _ & HK & ->). simpl.
  split.
  - eapply subset_loop_Forall; [exact HK|]. apply retained_Forall.
  - eapply subset_loop_NoDup; [exact HK|]. apply dedup_NoDup.
Qed.

(** ** Step 3 of add_knowledge *)







(** ** The order in which a set is walked does not matter

    Step 4 walks copies of Python sets.  Whatever the order, the loop over
    the known safes ends in the same state, and the loop over the known
    mines, if it returns for one order, returns for every order and in the
    same state. *)

Lemma Sentence_mark_safe_eq (s : Sentence) (c : Cell) :
  Sentence.mark_safe s c = {| cells := cells s ∖ {[c]}; count := count s |}.
Proof.
  unfold Sentence.mark_safe. case_decide as Hc; [done|].
  destruct s as [cs n]. simpl in *. f_equal. set_solver.
Qed.

Lemma Sentence_remove_mine_comm (s : Sentence) (c1 c2 : Cell) :
  Sentence.remove_mine (Sentence.remove_mine s c1) c2 =
  Sentence.remove_mine (Sentence.remove_mine s c2) c1.
Proof.
  destruct (decide (c1 = c2)) as [->|Hne]; [done|].
  destruct s as [cs n]. unfold Sentence.remove_mine. simpl.
  destruct (decide (c1 ∈ cs)) as [H1|H1]; destruct (decide (c2 ∈ cs)) as [H2|H2]; simpl.
  - rewrite decide_True by set_solver. rewrite decide_True by set_solver.
    f_equal. set_solver.
  - rewrite decide_False by set_solver. by rewrite decide_True by done.
  - rewrite decide_True by done. by rewrite decide_False by set_solver.
  - rewrite decide_False by done. by rewrite decide_False by done.
Qed.

Lemma Sentence_remove_mine_count (s : Sentence) (c : Cell) :
  count s - 1 ≤ count (Sentence.remove_mine s c) ≤ count s.
Proof. unfold Sentence.remove_mine. case_decide; simpl; lia. Qed.

Lemma mark_safe_comm (a : MinesweeperAI) (c1 c2 : Cell) :
  mark_safe (mark_safe a c1) c2 = mark_safe (mark_safe a c2) c1.
Proof.
  unfold mark_safe, set_knowledge, add_safe. simpl. f_equal; [set_solver|].
  rewrite <- !list_fmap_compose. apply list_fmap_ext. intros i s _. simpl.
  rewrite !Sentence_mark_safe_eq. simpl. f_equal. set_solver.
Qed.

Lemma mark_safes_Permutation (cs cs' : list Cell) (a : MinesweeperAI) :
  cs ≡ₚ cs' → mark_safes cs a = mark_safes cs' a.
Proof.
  unfold mark_safes. intros Hp. revert a.
  induction Hp as [|c l l' _ IH|c1 c2 l|l1 l2 l3 _ IH1 _ IH2]; intros a; simpl.
  - done.
  - apply IH.
  - by rewrite mark_safe_comm.
  - by rewrite IH1.
Qed.

Lemma mark_mine_each_returns (c : Cell) (K : list Sentence) :
  Forall (λ s, 0 ≤ count (Sentence.remove_mine s c)) K →
  mark_mine_each c K = Returned ((λ s, Sentence.remove_mine s c) <$> K).
Proof.
  induction 1 as [|s K Hs _ IH]; simpl; [done|].
  unfold Sentence.mark_mine. rewrite decide_False by lia. by rewrite IH.
Qed.

Lemma mark_mine_comm (a a1 a2 : MinesweeperAI) (c1 c2 : Cell) :
  mark_mine a c1 = Returned a1 → mark_mine a1 c2 = Returned a2 →
  ∃ b, mark_mine a c2 = Returned b ∧ mark_mine b c1 = Returned a2.
Proof.
  intros H1 H2.
  apply mark_mine_returned in H1 as [-> _].
  apply mark_mine_returned in H2 as [-> HF2]. simpl in *.
  rewrite <- list_fmap_compose in *.
  assert (HF : Forall (λ s, 0 ≤ count (Sentence.remove_mine (Sentence.remove_mine s c1) c2))
                 (knowledge a)).
  { rewrite Forall_fmap in HF2. eapply Forall_impl; [exact HF2|]. by intros s Hs. }
  assert (Hc2 : Forall (λ s, 0 ≤ count (Sentence.remove_mine s c2)) (knowledge a)).
  { eapply Forall_impl; [exact HF|]. intros s Hs. simpl in Hs.
    rewrite Sentence_remove_mine_comm in Hs.
    pose proof (Sentence_remove_mine_count (Sentence.remove_mine s c2) c1). lia. }
  eexists. split.
  - unfold mark_mine. simpl. by rewrite (mark_mine_each_returns c2 _ Hc2).
  - unfold mark_mine. simpl. rewrite mark_mine_each_returns.
    + unfold set_knowledge, add_mine. simpl. do 2 f_equal; [set_solver|].
      rewrite <- list_fmap_compose. apply list_fmap_ext. intros i s _. simpl.
      apply Sentence_remove_mine_comm.
    + apply Forall_fmap. eapply Forall_impl; [exact HF|]. intros s Hs. simpl in *.
      by rewrite Sentence_remove_mine_comm.
Qed.

Lemma mark_mines_Permutation (cs cs' : list Cell) (a a' : MinesweeperAI) :
  cs ≡ₚ cs' → mark_mines cs a = Returned a' → mark_mines cs' a = Returned a'.
Proof.
  intros Hp. revert a a'.
  induction Hp as [|c l l' _ IH|c1 c2 l|l1 l2 l3 _ IH1 _ IH2]; intros a a' H; simpl in *.
  - done.
  - destruct (mark_mine a c) as [a1|e a1]; [by apply IH | done].
  - destruct (mark_mine a c2) as [a1|e a1] eqn:H1; [|done].
    destruct (mark_mine a1 c1) as [a2|e a2] eqn:H2; [|done].
    destruct (mark_mine_comm _ _ _ _ _ H1 H2) as (b & -> & ->). done.
  - by apply IH2, IH1.
Qed.

(** ** Step 4: properties kept by every mark *)

Section StepFourInvariant.
Variable P : MinesweeperAI → Prop.
Hypothesis P_mark_mine : ∀ a c a', P a → mark_mine a c = Returned a' → P a'.
Hypothesis P_mark_safe : ∀ a c, P a → P (mark_safe a c).

Lemma mark_mines_invariant (cs : list Cell) (a a' : MinesweeperAI) :
  P a → mark_mines cs a = Returned a' → P a'.
Proof.
  revert a. induction cs as [|c cs IH]; intros a HP H; simpl in H.
  - by injection H as <-.
  - destruct (mark_mine a c) as [a1|e a1] eqn:Hm; [|done]. eauto.
Qed.

Lemma mark_safes_invariant (cs : list Cell) (a : MinesweeperAI) :
  P a → P (mark_safes cs a).
Proof.
  unfold mark_safes. revert a. induction cs as [|c cs IH]; intros a HP; simpl; auto.
Qed.

Lemma conclude_at_invariant (k : nat) (a a' : MinesweeperAI) :
  P a → conclude_at k a = Returned a' → P a'.
Proof.
  unfold conclude_at. intros HP H.
  destruct (knowledge a !! k) as [s|]; [|by injection H as <-].
  destruct (mark_mines _ a) as [a1|e a1] eqn:Hm; [|done].
  pose proof (mark_mines_invariant _ _ _ HP Hm) as HP1.
  destruct (knowledge a1 !! k) as [s1|]; injection H as <-; [|done].
  by apply mark_safes_invariant.
Qed.

Lemma conclude_each_invariant (ks : list nat) (a a' : MinesweeperAI) :
  P a → conclude_each ks a = Returned a' → P a'.
Proof.
  revert a. induction ks as [|k ks IH]; intros a HP H; simpl in H.
  - by injection H as <-.
  - destruct (conclude_at k a) as [a1|e a1] eqn:Hc; [|done].
    eapply IH; [|exact H]. by eapply conclude_at_invariant.
Qed.
End StepFourInvariant.

Lemma conclude_each_app (ks ks' : list nat) (a : MinesweeperAI) :
  conclude_each (ks ++ ks') a =
    match conclude_each ks a with
    | Returned a' => conclude_each ks' a'
    | Raised e a' => Raised e a'
    end.
Proof.
  revert a. induction ks as [|k ks IH]; intros a; simpl; [done|].
  destruct (conclude_at k a); [apply IH | done].
Qed.

Lemma mark_safes_safes (cs : list Cell) (a : MinesweeperAI) :
  safes (mark_safes cs a) = list_to_set cs ∪ safes a.
Proof.
  unfold mark_safes. revert a. induction cs as [|c cs IH]; intros a; simpl.
  - set_solver.
  - rewrite IH. simpl. set_solver.
Qed.

Lemma inference_pass_sets (fuel : nat) (a a' a1 : MinesweeperAI) :
  conclude a = Returned a1 → inference_pass fuel a = Some (Returned a') →
  mines a' = mines a1 ∧ safes a' = safes a1 ∧ moves_made a' = moves_made a1 ∧
  height a' = height a1 ∧ width a' = width a1.
Proof.
  intros Hc H. apply inference_pass_returned in H as (a2 & K & Hc' & _ & ->).
  rewrite Hc in Hc'. by injection Hc' as <-.
Qed.

(** ** Revealing the corner with count 0 *)

Lemma pending_safe_mark_mine (n : nat) (T : gset Cell) (a a' : MinesweeperAI) (c : Cell) :
  pending_safe n T a → mark_mine a c = Returned a' → pending_safe n T a'.
Proof.
  intros (s & Hs & Hc & HT) Hm.
  apply mark_mine_returned in Hm as [-> HF]. simpl in *.
  assert (Hn : ((λ s, Sentence.remove_mine s c) <$> knowledge a) !! n
               = Some (Sentence.remove_mine s c)).
  { by rewrite list_lookup_fmap, Hs. }
  pose proof (Forall_lookup_1 _ _ _ _ HF Hn) as Hpos. simpl in Hpos.
  assert (Hnot : c ∉ cells s).
  { intros Hin. unfold Sentence.remove_mine in Hpos.
    rewrite decide_True in Hpos by done. simpl in Hpos. lia. }
  exists s. split; [|by split].
  simpl. rewrite list_lookup_fmap, Hs. simpl. unfold Sentence.remove_mine.
  by rewrite decide_False by done.
Qed.

Lemma pending_safe_mark_safe (n : nat) (T : gset Cell) (a : MinesweeperAI) (c : Cell) :
  pending_safe n T a → pending_safe n T (mark_safe a c).
Proof.
  intros (s & Hs & Hc & HT). exists (Sentence.mark_safe s c). simpl.
  rewrite list_lookup_fmap, Hs. split; [done|].
  unfold Sentence.mark_safe. case_decide; simpl; (split; [done|]).
  - intros x Hx. rewrite elem_of_difference, elem_of_union, !elem_of_singleton.
    destruct (HT x Hx) as [Hin|Hin]; [|by auto].
    destruct (decide (x = c)); by auto.
  - intros x Hx. rewrite elem_of_union. destruct (HT x Hx); by auto.
Qed.

Lemma conclude_at_pending_safe (n : nat) (T : gset Cell) (a a' : MinesweeperAI) :
  pending_safe n T a → conclude_at n a = Returned a' → T ⊆ safes a'.
Proof.
  intros HP H. unfold conclude_at in H.
  destruct HP as (s & Hs & Hc & HT). rewrite Hs in H.
  destruct (mark_mines _ a) as [a1|e a1] eqn:Hm; [|done].
  assert (HP1 : pending_safe n T a1).
  { eapply (mark_mines_invariant (pending_safe n T)); [| |exact Hm].
    - intros ????. by apply pending_safe_mark_mine.
    - by exists s. }
  destruct HP1 as (s1 & Hs1 & Hc1 & HT1). rewrite Hs1 in H. injection H as <-.
  rewrite mark_safes_safes. unfold Sentence.known_safes.
  rewrite decide_True by done. intros x Hx.
  destruct (HT1 x Hx) as [Hin|Hin]; [|set_solver].
  apply elem_of_union. left. by apply elem_of_list_to_set, elem_of_elements.
Qed.

Lemma neighbors_corner (a : MinesweeperAI) :
  2 ≤ height a → 2 ≤ width a →
  ({[ (0, 1); (1, 0); (1, 1) ]} : gset Cell) ⊆ neighbors a (0, 0).
Proof.
  intros Hh Hw [i j] Hx. apply elem_of_neighbors. simpl.
  rewrite !elem_of_union, !elem_of_singleton in Hx.
  destruct Hx as [[Hx|Hx]|Hx]; injection Hx as -> ->;
    (repeat split; try lia; intros [=]).
Qed.

Lemma known_mines_count_0 (s : Sentence) :
  count s = 0 → elements (Sentence.known_mines s) = [].
Proof.
  intros Hc. unfold Sentence.known_mines, Sentence.len.
  case_decide as Hl; [|apply elements_empty].
  assert (He : cells s = ∅) by (apply leibniz_equiv, size_empty_iff; lia).
  rewrite He. apply elements_empty.
Qed.

(** Step 4 on the knowledge base that [observe] leaves, split at the new
    sentence. *)
Lemma conclude_observe (a : MinesweeperAI) (cell : Cell) (n : Z) :
  let n0 := length (knowledge (mark_safe (add_move a cell) cell)) in
  conclude (observe a cell n) =
    match conclude_each (seq 0 n0) (observe a cell n) with
    | Returned a' => conclude_each [n0] a'
    | Raised e a' => Raised e a'
    end.
Proof.
  intros n0. unfold conclude.
  replace (length (knowledge (observe a cell n))) with (S n0).
  - by rewrite seq_S, conclude_each_app.
  - unfold observe. simpl. rewrite length_app. simpl. subst n0. simpl. lia.
Qed.

(** When the knowledge base is empty, the call for the corner returns. *)
Lemma corner_zero_returns_fresh (a : MinesweeperAI) :
  knowledge a = [] → ∃ fuel a', add_knowledge fuel a (0, 0) 0 = Some (Returned a').
Proof.
  intros HK.
  assert (Hc : ∃ a1, conclude (observe a (0, 0) 0) = Returned a1).
  { rewrite conclude_observe. simpl. rewrite HK. simpl.
    unfold conclude_at. simpl. rewrite HK. simpl.
    rewrite known_mines_count_0 by done. simpl. rewrite HK. simpl. eauto. }
  destruct Hc as [a1 Hc].
  destruct (add_knowledge_terminates a (0, 0) 0) as (fuel & o & Ho).
  exists fuel. unfold add_knowledge, inference_pass in *. rewrite Hc in *.
  destruct (subset_loop fuel (retained a1) 0 0); [|done]. simpl. eauto.
Qed.

(** Whenever the call for the corner returns, its three neighbours are in
    [safes]. *)
Lemma corner_zero_marks (a : MinesweeperAI) (fuel : nat) (a' : MinesweeperAI) :
  2 ≤ height a → 2 ≤ width a →
  add_knowledge fuel a (0, 0) 0 = Some (Returned a') →
  {[ (0, 1); (1, 0); (1, 1) ]} ⊆ safes a'.
Proof.
  intros Hh Hw H. unfold add_knowledge in H.
  pose proof H as H'. apply inference_pass_returned in H' as (a1 & K & Hc & _ & _).
  destruct (inference_pass_sets _ _ _ _ Hc H) as (_ & -> & _).
  rewrite conclude_observe in Hc.
  set (n0 := length (knowledge (mark_safe (add_move a (0, 0)) (0, 0)))) in *.
  assert (HP : pending_safe n0 {[ (0, 1); (1, 0); (1, 1) ]} (observe a (0, 0) 0)).
  { eexists. split; [|split].
    - unfold observe. simpl. by apply list_lookup_middle.
    - done.
    - intros c Hin. left. by apply (neighbors_corner a Hh Hw). }
  destruct (conclude_each (seq 0 n0) (observe a (0, 0) 0)) as [am|e am] eqn:Hm; [|done].
  assert (HPm : pending_safe n0 {[ (0, 1); (1, 0); (1, 1) ]} am).
  { eapply (conclude_each_invariant (pending_safe n0 _)); [| |exact HP|exact Hm].
    - intros ????. by apply pending_safe_mark_mine.
    - intros ??. by apply pending_safe_mark_safe. }
  simpl in Hc. destruct (conclude_at n0 am) as [a2|e a2] eqn:H2; [|done].
  injection Hc as <-. by eapply conclude_at_pending_safe.
Qed.

(** ** The subset rule reaches every pair of retained sentences *)

Lemma subset_loop_reaches (p q : nat) (s1 s2 : Sentence) :
  s1 ≠ s2 → cells s1 ⊆ cells s2 → cells s2 ∖ cells s1 ≠ ∅ →
  0 ≤ count s2 - count s1 →
  ∀ fuel K i j K',
    subset_loop fuel K i j = Some K' →
    K !! p = Some s1 → K !! q = Some s2 →
    ((p < i ∨ (p = i ∧ q < j))%nat →
       Sentence.init (cells s2 ∖ cells s1) (count s2 - count s1) ∈ K) →
    Sentence.init (cells s2 ∖ cells s1) (count s2 - count s1) ∈ K'.
Proof.
  intros Hne Hsub Hc Hn fuel.
  induction fuel as [|fuel IH]; intros K i j K' H Hp Hq Hdone; [done|].
  pose proof (lookup_lt_Some _ _ _ Hp) as Hplt.
  pose proof (lookup_lt_Some _ _ _ Hq) as Hqlt.
  simpl in H. destruct (K !! i) as [x1|] eqn:Hi.
  2:{ injection H as <-. apply Hdone. apply lookup_ge_None in Hi. lia. }
  destruct (K !! j) as [x2|] eqn:Hj.
  - pose proof (infer_prefix x1 x2 K) as Hpre.
    eapply IH; [exact H| | |].
    + by eapply prefix_lookup_Some.
    + by eapply prefix_lookup_Some.
    + intros Hlt. destruct (decide (p = i ∧ q = j)) as [[-> ->]|Hnot].
      * rewrite Hp in Hi. rewrite Hq in Hj.
        injection Hi as <-. injection Hj as <-. by apply infer_derives.
      * assert (Hin : Sentence.init (cells s2 ∖ cells s1) (count s2 - count s1) ∈ K)
          by (apply Hdone; lia).
        apply list_elem_of_lookup in Hin as [k Hk].
        eapply list_elem_of_lookup_2. by eapply prefix_lookup_Some.
  - eapply IH; [exact H|done|done|].
    intros Hlt. apply Hdone. apply lookup_ge_None in Hj. lia.
Qed.

Lemma subset_loop_derives (fuel : nat) (K K' : list Sentence) (s1 s2 : Sentence) :
  subset_loop fuel K 0 0 = Some K' → s1 ∈ K → s2 ∈ K →
  s1 ≠ s2 → cells s1 ⊆ cells s2 → cells s2 ∖ cells s1 ≠ ∅ →
  0 ≤ count s2 - count s1 →
  Sentence.init (cells s2 ∖ cells s1) (count s2 - count s1) ∈ K'.
Proof.
  intros H H1 H2 Hne Hsub Hc Hn.
  apply list_elem_of_lookup in H1 as [p Hp]. apply list_elem_of_lookup in H2 as [q Hq].
  eapply (subset_loop_reaches p q s1 s2); try done. lia.
Qed.

Lemma sentence_C_derived :
  sentence_A ≠ sentence_B ∧ cells sentence_A ⊆ cells sentence_B ∧
  cells sentence_B ∖ cells sentence_A ≠ ∅ ∧
  Sentence.init (cells sentence_B ∖ cells sentence_A)
                (count sentence_B - count sentence_A) = sentence_C.
Proof.
  split; [by intros [=]|]. split; [|split].
  - apply (bool_decide_unpack _). by vm_compute.
  - apply (bool_decide_unpack _). by vm_compute.
  - by vm_compute.
Qed.

(** The part of the subset-rule example that the code does: if, when step 5
    of an [add_knowledge] call starts, the retained sentences include
    A = {(1,1),(1,2)} with count 1 and B = {(1,1),(1,2),(1,3)} with count 2,
    then the call returns and C = {(1,3)} with count 1 is in the knowledge
    base it leaves.  Nothing runs after step 5, so [mines] and [safes] are
    as step 4 left them. *)
Lemma subset_rule_derives_C (a a1 : MinesweeperAI) (cell : Cell) (n : Z) :
  conclude (observe a cell n) = Returned a1 →
  sentence_A ∈ retained a1 → sentence_B ∈ retained a1 →
  (∃ fuel a', add_knowledge fuel a cell n = Some (Returned a')) ∧
  (∀ fuel a', add_knowledge fuel a cell n = Some (Returned a') →
     sentence_C ∈ knowledge a' ∧ mines a' = mines a1 ∧ safes a' = safes a1).
Proof.
  intros Hc HA HB. split.
  - destruct (add_knowledge_terminates a cell n) as (fuel & o & Ho).
    exists fuel. unfold add_knowledge, inference_pass in *. rewrite Hc in *.
    destruct (subset_loop fuel (retained a1) 0 0); [|done]. simpl. eauto.
  - intros fuel a' H. unfold add_knowledge in H.
    destruct (inference_pass_sets _ _ _ _ Hc H) as (Hm & Hs & _).
    split; [|done].
    apply inference_pass_returned in H as (a2 & K & Hc' & HK & ->).
    rewrite Hc in Hc'. injection Hc' as <-. simpl.
    destruct sentence_C_derived as (Hne & Hsub & Hd & <-).
    eapply subset_loop_derives; try done.
Qed.

Lemma subset_rule_derives_C_witness :
  sentence_C ∈ knowledge row_derived ∧ (1, 3) ∉ mines row_derived.
Proof.
  assert (Hc : ∃ a1, conclude (observe row_hinted (0, 6) 1) = Returned a1 ∧
                     retained a1 =
                       [ sentence_A; sentence_B;
                         {| cells := {[ (0, 5); (0, 7); (1, 5); (1, 6); (1, 7) ]};
                            count := 1 |} ] ∧ mines a1 = ∅).
  { exists (state_of (conclude (observe row_hinted (0, 6) 1))).
    split; [by vm_compute|]. split; by vm_compute. }
  destruct Hc as (a1 & Hc & Hret & Hmines).
  assert (HA : sentence_A ∈ retained a1) by (rewrite Hret; by left).
  assert (HB : sentence_B ∈ retained a1) by (rewrite Hret; right; by left).
  destruct (subset_rule_derives_C row_hinted a1 (0, 6) 1 Hc HA HB) as [_ Hall].
  destruct (Hall 30%nat row_derived row_derived_run) as (HC & Hm & _).
  split; [exact HC|]. rewrite Hm, Hmines. apply not_elem_of_empty.
Defined.

(** C2: with A = {(1,1),(1,2)}, count 1, and B = {(1,1),(1,2),(1,3)},
    count 2, retained, the inference pass is to derive C = {(1,3)}, count 1,
    and to mark (1,3) as a mine; the docstring of [add_knowledge] (step 4)
    and the comments on steps 4 and 5 ask for the same.  The code does the
    first and not the second.  [row_hinted] is reached by calls that return
    and its knowledge base is [A; B].  The next call, for (0,6) with
    count 1, retains A and B and derives C, yet it returns with (1,3) not
    in [mines]: step 4 is not run again on what step 5 derived.  Only the
    step 4 of a later call, here for (0,7) with count 0, marks (1,3). *)
Theorem subset_rule_does_not_mark :
  reachable row_hinted ∧
  knowledge row_hinted = [ sentence_A; sentence_B ] ∧
  add_knowledge 30 row_hinted (0, 6) 1 = Some (Returned row_derived) ∧
  sentence_A ∈ knowledge row_derived ∧ sentence_B ∈ knowledge row_derived ∧
  knowledge row_derived !! 3%nat = Some sentence_C ∧
  ((1, 3) ∉ mines row_derived) ∧
  (mines <$> returned (add_knowledge 30 row_derived (0, 7) 0)) = Some {[ (1, 3) ]}.
Proof.
  split; [exact row_hinted_reachable|]. split; [done|].
  split; [exact row_derived_run|].
  split; [by left|]. split; [right; by left|]. split; [done|].
  split; [apply not_elem_of_empty | by vm_compute].
Qed.

(** ** Step 5 leaves a knowledge base closed under the subset rule *)

Lemma closed_pair_prefix (K K' : list Sentence) (s1 s2 : Sentence) :
  K `prefix_of` K' → closed_pair K s1 s2 → closed_pair K' s1 s2.
Proof.
  intros Hpre Hc Hr. specialize (Hc Hr).
  apply list_elem_of_lookup in Hc as [k Hk].
  eapply list_elem_of_lookup_2. by eapply prefix_lookup_Some.
Qed.

Lemma late_prefix (K K' : list Sentence) (i j : nat) (w : Sentence) :
  K `prefix_of` K' → late K i j w → late K' i j w.
Proof.
  intros Hpre (r & b & t & s & Hr & Hb & Ht & Hs & Hrule & Hw).
  exists r, b, t, s. split; [done|]. split; [done|].
  split; [by eapply prefix_lookup_Some|]. split; [by eapply prefix_lookup_Some|].
  done.
Qed.

Lemma infer_closed_pair (s1 s2 : Sentence) (K : list Sentence) :
  closed_pair (infer s1 s2 K) s1 s2.
Proof. intros (? & ? & ? & ?). by apply infer_derives. Qed.

Lemma infer_closed_id (s1 s2 : Sentence) (K : list Sentence) :
  closed_pair K s1 s2 → infer s1 s2 K = K.
Proof.
  intros Hc. destruct (infer_cases s1 s2 K)
    as [Heq | (new & _ & Hnew & Hne & Hsub & Hcells & Hcount & Hnonempty & Hpos)]; [done|].
  destruct Hnew. assert (Hr : rule_applies s1 s2).
  { unfold rule_applies. rewrite <- Hcells, <- Hcount. done. }
  specialize (Hc Hr). unfold derived, Sentence.init in Hc.
  rewrite <- Hcells, <- Hcount in Hc. by destruct new.
Qed.

Lemma lookup_infer_old (s1 s2 : Sentence) (K : list Sentence) (k : nat) (w : Sentence) :
  infer s1 s2 K !! k = Some w → (k < length K)%nat → K !! k = Some w.
Proof.
  destruct (infer_cases s1 s2 K) as [-> | (new & -> & _)]; [done|].
  intros H Hk. by rewrite lookup_app_l in H.
Qed.

Lemma lookup_infer_new (s1 s2 : Sentence) (K : list Sentence) (k : nat) (w : Sentence) :
  infer s1 s2 K !! k = Some w → (length K ≤ k)%nat →
  rule_applies s1 s2 ∧ w = derived s1 s2 ∧ k = length K.
Proof.
  destruct (infer_cases s1 s2 K)
    as [-> | (new & -> & _ & Hne & Hsub & Hcells & Hcount & Hnonempty & Hpos)].
  - intros H Hk. apply lookup_lt_Some in H. lia.
  - intros H Hk. pose proof (lookup_lt_Some _ _ _ H) as Hlt.
    rewrite length_app in Hlt. simpl in Hlt.
    assert (k = length K) as -> by lia.
    rewrite list_lookup_middle in H by done. injection H as <-.
    unfold rule_applies, derived, Sentence.init. rewrite <- Hcells, <- Hcount.
    repeat split; try done. by destruct new.
Qed.

Lemma walked_next_column (K : list Sentence) (i j : nat) (s1 s2 : Sentence) :
  K !! i = Some s1 → K !! j = Some s2 → walked K i j →
  walked (infer s1 s2 K) i (S j).
Proof.
  intros Hi Hj [H1 H2]. pose proof (infer_prefix s1 s2 K) as Hpre.
  pose proof (lookup_lt_Some _ _ _ Hi) as Hilt.
  pose proof (lookup_lt_Some _ _ _ Hj) as Hjlt.
  split.
  - intros i' j' x w Hlt Hx Hw.
    apply lookup_infer_old in Hx; [|lia].
    destruct (decide (j' < length K)%nat) as [Hj'|Hj'].
    + apply lookup_infer_old in Hw; [|done].
      destruct (H1 i' j' x w Hlt Hx Hw) as [Hc|Hl].
      * left. by eapply closed_pair_prefix.
      * right. by eapply late_prefix.
    + apply lookup_infer_new in Hw as (Hr & -> & ->); [|lia].
      right. exists i, j, s1, s2. split; [done|]. split; [lia|].
      split; [by eapply prefix_lookup_Some|].
      split; [by eapply prefix_lookup_Some|]. done.
  - intros j' x w Hlt Hx Hw.
    apply lookup_infer_old in Hx; [|done]. rewrite Hi in Hx. injection Hx as <-.
    apply lookup_infer_old in Hw; [|lia].
    destruct (decide (j' = j)) as [->|Hne].
    + rewrite Hj in Hw. injection Hw as <-. apply infer_closed_pair.
    + eapply closed_pair_prefix; [exact Hpre|]. eapply (H2 j'); try done. lia.
Qed.

Lemma walked_next_row (K : list Sentence) (i j : nat) :
  K !! j = None → walked K i j → walked K (S i) 0.
Proof.
  intros Hj [H1 H2]. apply lookup_ge_None in Hj. split.
  - intros i' j' x w Hlt Hx Hw.
    destruct (decide (i' = i)) as [->|Hne]; [|apply H1; (done || lia)].
    left. eapply (H2 j'); try done. apply lookup_lt_Some in Hw. lia.
  - intros j' x w Hlt. lia.
Qed.

Lemma subset_loop_walked (fuel : nat) :
  ∀ K i j K', subset_loop fuel K i j = Some K' → walked K i j →
              ∃ i', K' !! i' = None ∧ walked K' i' 0.
Proof.
  induction fuel as [|fuel IH]; intros K i j K' H Hw; [done|].
  simpl in H. destruct (K !! i) as [s1|] eqn:Hi.
  2:{ injection H as <-. exists i. split; [done|]. destruct Hw as [H1 _].
      split; [done|]. intros j' x w Hlt. lia. }
  destruct (K !! j) as [s2|] eqn:Hj.
  - eapply IH; [exact H|]. by apply walked_next_column.
  - eapply IH; [exact H|]. by eapply walked_next_row.
Qed.

(** The algebra behind the closure: if [w] comes from the pair [(t, s)] and
    the pair [(x, w)] meets the conditions, then so do [(x, s)] and
    [(t, s - x)], and [(s - x) - t] is [w - x]. *)
Lemma late_exchange (x t s : Sentence) :
  0 ≤ count t → cells t ≠ ∅ →
  rule_applies t s → rule_applies x (derived t s) →
  rule_applies x s ∧ rule_applies t (derived x s) ∧
  derived t (derived x s) = derived x (derived t s).
Proof.
  intros Hct Ht (Hts & Hsub & Hne & Hcnt) (Hxw & Hsubx & Hnex & Hcntx).
  simpl in *.
  apply set_choose_L in Ht as [e He].
  apply set_choose_L in Hnex as [e' He'].
  assert (He1 : e ∈ cells s ∧ e ∉ cells x) by set_solver.
  assert (He2 : e' ∈ cells s ∧ (e' ∉ cells x) ∧ (e' ∉ cells t)) by set_solver.
  split; [|split].
  - split; [|split; [|split]].
    + intros ->. by destruct He1.
    + set_solver.
    + apply (non_empty_inhabited_L e). set_solver.
    + lia.
  - split; [|split; [|split]]; simpl.
    + intros ->. simpl in *. set_solver.
    + set_solver.
    + apply (non_empty_inhabited_L e'). set_solver.
    + lia.
  - unfold derived, Sentence.init. simpl. f_equal; [set_solver | lia].
Qed.

Lemma walked_closed (K : list Sentence) :
  well_formed K →
  (∀ i j x w, K !! i = Some x → K !! j = Some w → closed_pair K x w ∨ late K i j w) →
  closed K.
Proof.
  intros Hwf Hall.
  assert (Hmain : ∀ p i, (length K - i)%nat = p →
                  ∀ j x w, K !! i = Some x → K !! j = Some w → closed_pair K x w).
  { induction p as [p IHp] using lt_wf_ind. intros i Hp j.
    induction j as [j IHj] using lt_wf_ind. intros x w Hx Hw.
    destruct (Hall i j x w Hx Hw)
      as [Hc | (r & b & t & s & Hr & Hb & Ht & Hs & Hrule & ->)]; [done|].
    intros Happ.
    destruct (Forall_lookup_1 _ _ _ _ Hwf Ht) as [Hct Hnt].
    destruct (late_exchange x t s Hct Hnt Hrule Happ) as (Hxs & Htd & <-).
    pose proof (IHj b Hb x s Hx Hs Hxs) as Hd.
    apply list_elem_of_lookup in Hd as [d Hd].
    pose proof (lookup_lt_Some _ _ _ Ht) as Hrlt.
    by apply (IHp (length K - r)%nat ltac:(lia) r eq_refl d t (derived x s) Ht Hd). }
  intros s1 s2 H1 H2.
  apply list_elem_of_lookup in H1 as [i Hi]. apply list_elem_of_lookup in H2 as [j Hj].
  by eapply Hmain.
Qed.

Lemma subset_loop_closed (fuel : nat) (K K' : list Sentence) :
  well_formed K → subset_loop fuel K 0 0 = Some K' → closed K'.
Proof.
  intros Hwf H.
  pose proof (subset_loop_Forall _ _ _ _ _ H Hwf) as Hwf'.
  apply subset_loop_walked in H as (i' & Hend & [H1 _]).
  - apply walked_closed; [done|]. intros i j x w Hx Hw.
    apply (H1 i j x w); [|done..]. apply lookup_ge_None in Hend.
    apply lookup_lt_Some in Hx. lia.
  - split; intros; lia.
Qed.

(** On a closed knowledge base the loops of step 5 add nothing. *)
Lemma subset_loop_closed_id (fuel : nat) (K K' : list Sentence) (i j : nat) :
  closed K → subset_loop fuel K i j = Some K' → K' = K.
Proof.
  intros Hc. revert i j. induction fuel as [|fuel IH]; intros i j H; [done|].
  simpl in H. destruct (K !! i) as [s1|] eqn:Hi; [|by injection H as <-].
  destruct (K !! j) as [s2|] eqn:Hj; [|by eapply IH].
  rewrite infer_closed_id in H; [by eapply IH|].
  apply Hc; by eapply list_elem_of_lookup_2.
Qed.

(** ** Running the inference pass again *)

Lemma conclude_at_undecided (k : nat) (a : MinesweeperAI) :
  Forall undecided (knowledge a) → conclude_at k a = Returned a.
Proof.
  intros HF. unfold conclude_at.
  destruct (knowledge a !! k) as [s|] eqn:Hk; [|done].
  destruct (Forall_lookup_1 _ _ _ _ HF Hk) as [H0 Hlen].
  unfold Sentence.known_mines. rewrite decide_False by done.
  rewrite elements_empty. simpl. rewrite Hk.
  unfold Sentence.known_safes. rewrite decide_False by done.
  by rewrite elements_empty.
Qed.

Lemma conclude_undecided (a : MinesweeperAI) :
  Forall undecided (knowledge a) → conclude a = Returned a.
Proof.
  intros HF. unfold conclude. generalize (seq 0 (length (knowledge a))).
  intros ks. induction ks as [|k ks IH]; simpl; [done|].
  by rewrite conclude_at_undecided.
Qed.

Lemma set_knowledge_id (a : MinesweeperAI) : set_knowledge a (knowledge a) = a.
Proof. by destruct a. Qed.

(** The states in which the pass of [add_knowledge] did reach a fixpoint:
    if no sentence of the knowledge base that the call leaves allows a
    trivial deduction (no count is 0 and no count is the number of cells),
    then running the pass again terminates, returns, and leaves the
    knowledge base, [mines], [safes] and [moves_made] exactly as they
    were. *)
Lemma inference_pass_stable (fuel : nat) (a a' : MinesweeperAI) (cell : Cell) (n : Z) :
  add_knowledge fuel a cell n = Some (Returned a') →
  Forall undecided (knowledge a') →
  (∃ fuel', inference_pass fuel' a' = Some (Returned a')) ∧
  (∀ fuel' o, inference_pass fuel' a' = Some o → o = Returned a').
Proof.
  intros Hrun Hund. unfold add_knowledge in Hrun.
  destruct (inference_pass_knowledge _ _ _ Hrun) as [Hwf Hnd].
  assert (Hret : retained a' = knowledge a').
  { unfold retained. rewrite cleanup_id by done. by apply dedup_id. }
  assert (Hcl : closed (knowledge a')).
  { apply inference_pass_returned in Hrun as (a1 & K & _ & HK & ->). simpl.
    eapply subset_loop_closed; [|exact HK]. apply retained_Forall. }
  assert (Hall : ∀ fuel' o, inference_pass fuel' a' = Some o → o = Returned a').
  { intros fuel' o. unfold inference_pass.
    rewrite (conclude_undecided a' Hund), Hret.
    destruct (subset_loop fuel' (knowledge a') 0 0) as [K|] eqn:HK; [|done].
    simpl. intros [= <-]. apply subset_loop_closed_id in HK; [|done].
    by rewrite HK, set_knowledge_id. }
  split; [|exact Hall].
  destruct (inference_pass_terminates a') as (fuel' & o & Ho).
  exists fuel'. by rewrite Ho, (Hall fuel' o Ho).
Qed.

Lemma inference_pass_stable_witness :
  add_knowledge 20 one_reveal (0, 1) 2 = Some (Returned two_reveals_open) ∧
  Forall undecided (knowledge two_reveals_open) ∧
  inference_pass 20 two_reveals_open = Some (Returned two_reveals_open).
Proof.
  assert (Hrun : add_knowledge 20 one_reveal (0, 1) 2 = Some (Returned two_reveals_open))
    by (by vm_compute).
  assert (Hund : Forall undecided (knowledge two_reveals_open))
    by (apply (bool_decide_unpack _); by vm_compute).
  split; [exact Hrun|]. split; [exact Hund|].
  destruct (inference_pass_stable 20 one_reveal two_reveals_open (0, 1) 2 Hrun Hund)
    as [_ Hall].
  destruct (inference_pass 20 two_reveals_open) as [o|] eqn:Ho.
  - by rewrite (Hall 20%nat o Ho).
  - by vm_compute in Ho.
Defined.

(** C3: when [add_knowledge] returns, the inference is to have reached a
    fixpoint, so that running the pass again changes nothing; the comments
    of the code ask for every conclusion that can be drawn to be drawn.
    The code runs step 4, the clean-up and step 5 once each and stops.  On
    a 2 x 3 board whose only mine is at (1,0), (0,0) is revealed with
    count 1 and (0,1) with count 1.  The second call derives the sentence
    {(0,0),(0,2),(1,2)} with count 0 and returns with it in the knowledge
    base and with (0,2) and (1,2) not in [safes].  Running the pass again
    marks (0,2) and (1,2) safe and shrinks the knowledge base to one
    sentence. *)
Theorem inference_pass_not_stable :
  add_knowledge 5 (init 2 3) (0, 0) 1 = Some (Returned one_reveal) ∧
  add_knowledge 20 one_reveal (0, 1) 1 = Some (Returned two_reveals) ∧
  inference_pass 20 two_reveals = Some (Returned two_reveals_again) ∧
  safes two_reveals = {[ (0, 0); (0, 1) ]} ∧
  safes two_reveals_again = {[ (0, 0); (0, 1); (0, 2); (1, 2) ]} ∧
  length (knowledge two_reveals) = 3%nat ∧
  length (knowledge two_reveals_again) = 1%nat ∧
  two_reveals_again ≠ two_reveals.
Proof.
  split; [by vm_compute|]. split; [by vm_compute|]. split; [by vm_compute|].
  split; [done|]. split; [done|]. split; [done|]. split; [done|].
  intros H. by apply (f_equal (λ a, length (knowledge a))) in H.
Qed.

(** * Further properties of the agent *)

(** ** What a sentence knows *)

(** X1: [known_mines] and [known_safes] never name the same cell, and both
    only name cells of the sentence. *)
Theorem known_mines_safes_disjoint (s : Sentence) :
  Sentence.known_mines s ## Sentence.known_safes s ∧
  Sentence.known_mines s ⊆ cells s ∧ Sentence.known_safes s ⊆ cells s.
Proof.
  unfold Sentence.known_mines, Sentence.known_safes, Sentence.len.
  destruct (decide (Z.of_nat (size (cells s)) = count s)) as [Hl|Hl];
    destruct (decide (count s = 0)) as [H0|H0]; try set_solver.
  assert (He : cells s = ∅) by (apply leibniz_equiv, size_empty_iff; lia).
  rewrite He. set_solver.
Qed.

(** ** When marking a mine raises *)

Lemma remove_mine_nonneg (s : Sentence) (c : Cell) :
  0 ≤ count (Sentence.remove_mine s c) ↔ 0 ≤ count s ∧ (c ∈ cells s → 1 ≤ count s).
Proof.
  unfold Sentence.remove_mine. destruct (decide (c ∈ cells s)) as [Hin|Hin]; simpl.
  - split; [intros H; split; [lia | intros _; lia] | intros [_ H]; specialize (H Hin); lia].
  - split; [intros H; split; [done | done] | by intros [? _]].
Qed.

(** X2: the agent's [mark_mine(c)] returns exactly when no sentence of the
    knowledge base has a negative count and every sentence that holds [c]
    has a count of at least 1.  A sentence whose count is already negative
    makes it raise even if the sentence does not hold [c]. *)
Theorem mark_mine_returns_iff (a : MinesweeperAI) (c : Cell) :
  (∃ a', mark_mine a c = Returned a') ↔
  Forall (λ s, 0 ≤ count s ∧ (c ∈ cells s → 1 ≤ count s)) (knowledge a).
Proof.
  split.
  - intros [a' H]. apply mark_mine_returned in H as [-> HF]. simpl in HF.
    rewrite Forall_fmap in HF. eapply Forall_impl; [exact HF|].
    intros s Hs. by apply remove_mine_nonneg.
  - intros HF. unfold mark_mine. simpl. rewrite mark_mine_each_returns; [eauto|].
    eapply Forall_impl; [exact HF|]. intros s Hs. by apply remove_mine_nonneg.
Qed.

(** ** What a mark does to the knowledge base *)

(** X3: [mark_safe(c)] puts [c] in [safes] and takes it out of every
    sentence, keeping every count; a [mark_mine(c)] that returns puts [c]
    in [mines], takes it out of every sentence and lowers by one the count
    of exactly the sentences that held it.  Nothing else changes. *)
Theorem mark_propagates (a : MinesweeperAI) (c : Cell) :
  (safes (mark_safe a c) = {[c]} ∪ safes a ∧ mines (mark_safe a c) = mines a ∧
   moves_made (mark_safe a c) = moves_made a ∧
   knowledge (mark_safe a c) =
     (λ s, {| cells := cells s ∖ {[c]}; count := count s |}) <$> knowledge a) ∧
  (∀ a', mark_mine a c = Returned a' →
     mines a' = {[c]} ∪ mines a ∧ safes a' = safes a ∧
     moves_made a' = moves_made a ∧
     knowledge a' =
       (λ s, {| cells := cells s ∖ {[c]};
                count := if decide (c ∈ cells s) then count s - 1 else count s |})
         <$> knowledge a).
Proof.
  split.
  - repeat split. simpl. apply list_fmap_ext. intros i s _.
    apply Sentence_mark_safe_eq.
  - intros a' H. apply mark_mine_returned in H as [-> _]. repeat split. simpl.
    apply list_fmap_ext. intros i s _. unfold Sentence.remove_mine.
    destruct (decide (c ∈ cells s)) as [Hin|Hin]; [done|].
    destruct s as [cs k]. simpl in *. f_equal. set_solver.
Qed.

(** X4: marking the same cell twice is marking it once. *)
Theorem mark_idempotent (a : MinesweeperAI) (c : Cell) :
  mark_safe (mark_safe a c) c = mark_safe a c ∧
  (∀ a', mark_mine a c = Returned a' → mark_mine a' c = Returned a').
Proof.
  split.
  - unfold mark_safe, set_knowledge, add_safe. simpl. f_equal; [set_solver|].
    rewrite <- list_fmap_compose. apply list_fmap_ext. intros i s _. simpl.
    rewrite !Sentence_mark_safe_eq. simpl. f_equal. set_solver.
  - intros a' H. apply mark_mine_returned in H as [-> HF]. simpl in HF.
    unfold mark_mine. simpl. rewrite mark_mine_each_absent.
    + unfold set_knowledge, add_mine. simpl. do 2 f_equal. set_solver.
    + rewrite Forall_fmap in *. eapply Forall_impl; [exact HF|].
      intros s Hs. simpl in *. split; [done|].
      unfold Sentence.remove_mine. case_decide; simpl; set_solver.
Qed.

(** X5: the order in which cells are marked does not matter.  Marking the
    cells of a list safe gives the same agent for every order of the list;
    marking them as mines, if it returns for one order, returns for every
    order with the same agent. *)
Theorem marking_order_irrelevant (cs cs' : list Cell) (a : MinesweeperAI) :
  cs ≡ₚ cs' →
  mark_safes cs a = mark_safes cs' a ∧
  (∀ a', mark_mines cs a = Returned a' → mark_mines cs' a = Returned a').
Proof.
  intros Hp. split; [by apply mark_safes_Permutation|].
  intros a'. by apply mark_mines_Permutation.
Qed.

Lemma marking_order_irrelevant_witness :
  mark_safes [(0, 0); (1, 1)] middle_once = mark_safes [(1, 1); (0, 0)] middle_once ∧
  ∃ a', mark_mines [(1, 1); (0, 0)] middle_twice = Returned a' ∧
        mark_mines [(0, 0); (1, 1)] middle_twice = Returned a'.
Proof.
  assert (Hp : [(0, 0); (1, 1)] ≡ₚ [(1, 1); (0, 0) : Cell]) by apply perm_swap.
  split; [exact (proj1 (marking_order_irrelevant _ _ middle_once Hp))|].
  exists (state_of (mark_mines [(1, 1); (0, 0)] middle_twice)).
  assert (H : mark_mines [(1, 1); (0, 0)] middle_twice =
              Returned (state_of (mark_mines [(1, 1); (0, 0)] middle_twice)))
    by (by vm_compute).
  split; [exact H|].
  symmetry in Hp. exact (proj2 (marking_order_irrelevant _ _ middle_twice Hp) _ H).
Defined.

(** ** add_knowledge as a whole *)

(** X6: [add_knowledge] always terminates, and its outcome is the same for
    every step budget that suffices. *)
Theorem add_knowledge_total (a : MinesweeperAI) (cell : Cell) (n : Z) :
  ∃ fuel o, add_knowledge fuel a cell n = Some o ∧
            ∀ fuel' o', add_knowledge fuel' a cell n = Some o' → o' = o.
Proof.
  destruct (add_knowledge_terminates a cell n) as (fuel & o & Ho).
  exists fuel, o. split; [done|]. intros fuel' o' Ho'.
  by eapply add_knowledge_fuel_irrelevant.
Qed.

(** X7: when [add_knowledge] returns, the knowledge base is closed under
    the subset rule: for any two different sentences of it, one's cells
    within the other's, whose difference has a cell and a count that is
    not negative, the difference is a sentence of the knowledge base. *)
Theorem add_knowledge_closed (fuel : nat) (a a' : MinesweeperAI) (cell : Cell) (n : Z)
    (s1 s2 : Sentence) :
  add_knowledge fuel a cell n = Some (Returned a') →
  s1 ∈ knowledge a' → s2 ∈ knowledge a' →
  s1 ≠ s2 → cells s1 ⊆ cells s2 → cells s2 ∖ cells s1 ≠ ∅ →
  0 ≤ count s2 - count s1 →
  {| cells := cells s2 ∖ cells s1; count := count s2 - count s1 |} ∈ knowledge a'.
Proof.
  intros Hrun H1 H2 Hne Hsub Hc Hn. unfold add_knowledge in Hrun.
  apply inference_pass_returned in Hrun as (a1 & K & _ & HK & ->). simpl in *.
  assert (Hcl : closed K).
  { eapply subset_loop_closed; [|exact HK]. apply retained_Forall. }
  by apply (Hcl s1 s2 H1 H2).
Qed.

Lemma add_knowledge_closed_witness :
  {| cells := {[ (1, 0); (1, 1) ]}; count := 1 |} ∈ knowledge two_reveals_open.
Proof.
  assert (Hrun : add_knowledge 20 one_reveal (0, 1) 2 = Some (Returned two_reveals_open))
    by (by vm_compute).
  set (s1 := {| cells := {[ (0, 0); (0, 2); (1, 2) ]}; count := 1 |}).
  set (s2 := {| cells := {[ (0, 0); (0, 2); (1, 0); (1, 1); (1, 2) ]}; count := 2 |}).
  assert (H : {| cells := cells s2 ∖ cells s1; count := count s2 - count s1 |}
              ∈ knowledge two_reveals_open).
  { apply (add_knowledge_closed 20 one_reveal two_reveals_open (0, 1) 2 s1 s2 Hrun).
    - apply (bool_decide_unpack _). by vm_compute.
    - apply (bool_decide_unpack _). by vm_compute.
    - by intros [=].
    - apply (bool_decide_unpack _). by vm_compute.
    - apply (bool_decide_unpack _). by vm_compute.
    - simpl. lia. }
  replace {| cells := {[ (1, 0); (1, 1) ]}; count := 1 |}
    with {| cells := cells s2 ∖ cells s1; count := count s2 - count s1 |}
    by (by vm_compute).
  exact H.
Defined.

(** ** What add_knowledge never undoes *)

Section StepFourAlways.
Variable P : MinesweeperAI → Prop.
Hypothesis P_mark_mine : ∀ a c, P a → P (state_of (mark_mine a c)).
Hypothesis P_mark_safe : ∀ a c, P a → P (mark_safe a c).

Lemma mark_mines_always (cs : list Cell) (a : MinesweeperAI) :
  P a → P (state_of (mark_mines cs a)).
Proof.
  revert a. induction cs as [|c cs IH]; intros a HP; simpl; [done|].
  pose proof (P_mark_mine a c HP) as H1.
  destruct (mark_mine a c) as [a1|e a1]; simpl in *; auto.
Qed.

Lemma conclude_at_always (k : nat) (a : MinesweeperAI) :
  P a → P (state_of (conclude_at k a)).
Proof.
  intros HP. unfold conclude_at. destruct (knowledge a !! k) as [s|]; [|done].
  pose proof (mark_mines_always (elements (Sentence.known_mines s)) a HP) as H1.
  destruct (mark_mines _ a) as [a1|e a1]; simpl in *; [|done].
  destruct (knowledge a1 !! k) as [s1|]; simpl; [|done].
  by apply mark_safes_invariant.
Qed.

Lemma conclude_each_always (ks : list nat) (a : MinesweeperAI) :
  P a → P (state_of (conclude_each ks a)).
Proof.
  revert a. induction ks as [|k ks IH]; intros a HP; simpl; [done|].
  pose proof (conclude_at_always k a HP) as H1.
  destruct (conclude_at k a) as [a1|e a1]; simpl in *; auto.
Qed.
End StepFourAlways.

(** X8: however [add_knowledge(cell, count)] ends, by returning or by
    raising, the cell is in [moves_made] and in [safes], [moves_made] has
    gained nothing else, [mines] and [safes] have lost nothing, and the
    bounds of the board are as they were. *)
Theorem add_knowledge_grows (fuel : nat) (a : MinesweeperAI) (cell : Cell) (n : Z)
    (o : outcome MinesweeperAI) :
  add_knowledge fuel a cell n = Some o →
  moves_made (state_of o) = {[cell]} ∪ moves_made a ∧
  mines a ⊆ mines (state_of o) ∧
  {[cell]} ∪ safes a ⊆ safes (state_of o) ∧
  height (state_of o) = height a ∧ width (state_of o) = width a.
Proof.
  set (P := λ x : MinesweeperAI,
         moves_made x = {[cell]} ∪ moves_made a ∧ mines a ⊆ mines x ∧
         {[cell]} ∪ safes a ⊆ safes x ∧ height x = height a ∧ width x = width a).
  assert (HP : P (state_of (conclude (observe a cell n)))).
  { unfold conclude. apply (conclude_each_always P).
    - intros x c (H1 & H2 & H3 & H4 & H5).
      destruct (mark_mine_sets x c) as (Hm & Hs & Hmv & Hh & Hw).
      unfold P. rewrite Hm, Hs, Hmv, Hh, Hw. repeat split; try done. set_solver.
    - intros x c (H1 & H2 & H3 & H4 & H5). unfold P. simpl.
      repeat split; try done. set_solver.
    - unfold P. simpl. repeat split; try done. }
  unfold add_knowledge, inference_pass.
  destruct (conclude (observe a cell n)) as [a1|e a1]; simpl in HP.
  - destruct (subset_loop fuel (retained a1) 0 0) as [K|]; [|done].
    simpl. by intros [= <-].
  - by intros [= <-].
Qed.

Lemma add_knowledge_grows_witness :
  moves_made row_derived = {[ (0, 6) ]} ∪ moves_made row_hinted ∧
  mines row_hinted ⊆ mines row_derived ∧
  {[ (0, 6) ]} ∪ safes row_hinted ⊆ safes row_derived ∧
  height row_derived = height row_hinted ∧ width row_derived = width row_hinted.
Proof.
  exact (add_knowledge_grows 30 row_hinted (0, 6) 1 (Returned row_derived) row_derived_run).
Defined.

(** ** A report of zero *)

(** X9: when [add_knowledge(cell, 0)] returns, every neighbour of the cell
    on the board is in [safes], for every cell and every agent. *)
Theorem zero_count_marks_neighbours (fuel : nat) (a a' : MinesweeperAI) (cell : Cell) :
  add_knowledge fuel a cell 0 = Some (Returned a') →
  neighbors a cell ⊆ safes a'.
Proof.
  intros H. unfold add_knowledge in H.
  pose proof H as H'. apply inference_pass_returned in H' as (a1 & K & Hc & _ & _).
  destruct (inference_pass_sets _ _ _ _ Hc H) as (_ & -> & _).
  rewrite conclude_observe in Hc.
  set (n0 := length (knowledge (mark_safe (add_move a cell) cell))) in *.
  assert (HP : pending_safe n0 (neighbors a cell) (observe a cell 0)).
  { eexists. split; [|split].
    - unfold observe. simpl. by apply list_lookup_middle.
    - done.
    - intros c Hin. by left. }
  destruct (conclude_each (seq 0 n0) (observe a cell 0)) as [am|e am] eqn:Hm; [|done].
  assert (HPm : pending_safe n0 (neighbors a cell) am).
  { eapply (conclude_each_invariant (pending_safe n0 _)); [| |exact HP|exact Hm].
    - intros ????. by apply pending_safe_mark_mine.
    - intros ??. by apply pending_safe_mark_safe. }
  simpl in Hc. destruct (conclude_at n0 am) as [a2|e a2] eqn:H2; [|done].
  injection Hc as <-. by eapply conclude_at_pending_safe.
Qed.

Lemma zero_count_marks_neighbours_witness :
  neighbors row_derived (0, 7) ⊆
    safes (state_of (default (Returned row_derived)
                       (add_knowledge 30 row_derived (0, 7) 0))).
Proof.
  assert (H : add_knowledge 30 row_derived (0, 7) 0 =
              Some (Returned (state_of (default (Returned row_derived)
                                          (add_knowledge 30 row_derived (0, 7) 0)))))
    by (by vm_compute).
  exact (zero_count_marks_neighbours 30 row_derived _ (0, 7) H).
Defined.

(** ** The neighbourhood *)

Lemma around_eq (cell : Cell) :
  Minesweeper.around cell =
    [ (cell.1 - 1, cell.2 - 1); (cell.1 - 1, cell.2); (cell.1 - 1, cell.2 + 1);
      (cell.1, cell.2 - 1); (cell.1, cell.2); (cell.1, cell.2 + 1);
      (cell.1 + 1, cell.2 - 1); (cell.1 + 1, cell.2); (cell.1 + 1, cell.2 + 1) ].
Proof.
  unfold Minesweeper.around, range.
  replace (cell.1 + 2 - (cell.1 - 1)) with 3 by lia.
  replace (cell.2 + 2 - (cell.2 - 1)) with 3 by lia.
  unfold seqZ. simpl.
  repeat (f_equal; try (f_equal; lia)).
Qed.

Lemma neighbors_around (a : MinesweeperAI) (cell : Cell) :
  neighbors a cell =
    list_to_set (filter (λ p, p ≠ cell ∧ (0 ≤ p.1 < height a) ∧ (0 ≤ p.2 < width a))
                        (Minesweeper.around cell)).
Proof.
  apply set_eq. intros [i j].
  rewrite elem_of_neighbors, elem_of_list_to_set, list_elem_of_filter. simpl.
  unfold Minesweeper.around, range. rewrite list_elem_of_bind. split.
  - intros (Hi & Hj & Hne & Hh & Hw). split; [done|].
    exists i. split; [|apply elem_of_seqZ; lia].
    apply list_elem_of_bind. exists j. split; [by apply list_elem_of_singleton|].
    apply elem_of_seqZ. lia.
  - intros ((Hne & Hh & Hw) & i' & Hin & Hi').
    apply list_elem_of_bind in Hin as (j' & Hin & Hj').
    apply list_elem_of_singleton in Hin. injection Hin as -> ->.
    apply elem_of_seqZ in Hi', Hj'. repeat split; try done; lia.
Qed.

Lemma around_NoDup (cell : Cell) : NoDup (Minesweeper.around cell).
Proof.
  unfold Minesweeper.around, range. apply NoDup_bind.
  - intros i1 i2 [i j] _ _ H1 H2.
    apply list_elem_of_bind in H1 as (j1 & H1 & _).
    apply list_elem_of_bind in H2 as (j2 & H2 & _).
    apply list_elem_of_singleton in H1, H2. congruence.
  - intros i _. apply NoDup_bind.
    + intros j1 j2 [i' j] _ _ H1 H2.
      apply list_elem_of_singleton in H1, H2. congruence.
    + intros j _. apply NoDup_singleton.
    + apply NoDup_seqZ.
  - apply NoDup_seqZ.
Qed.

Lemma neighbors_size (a : MinesweeperAI) (cell : Cell) :
  (size (neighbors a cell) ≤ 8)%nat.
Proof.
  assert (Hsub : {[cell]} ∪ neighbors a cell ⊆ list_to_set (Minesweeper.around cell)).
  { intros c Hc. apply elem_of_list_to_set.
    apply elem_of_union in Hc as [Hc|Hc].
    - apply elem_of_singleton in Hc as ->. rewrite around_eq.
      destruct cell as [i j]. simpl. do 4 right. by left.
    - rewrite neighbors_around in Hc. apply elem_of_list_to_set in Hc.
      by apply list_elem_of_filter in Hc as [_ ?]. }
  apply subseteq_size in Hsub.
  rewrite size_union in Hsub.
  - rewrite size_singleton in Hsub.
    rewrite size_list_to_set in Hsub by apply around_NoDup.
    rewrite around_eq in Hsub. simpl in Hsub. lia.
  - intros c Hc1 Hc2. apply elem_of_singleton in Hc1 as ->.
    destruct cell as [i j]. apply elem_of_neighbors in Hc2.
    by destruct Hc2 as (_ & _ & ? & _).
Qed.

(** X10: a cell has at most 8 neighbours, is not its own neighbour, every
    neighbour is on the board, and on the board being a neighbour is
    symmetric. *)
Theorem neighbors_facts (a : MinesweeperAI) (cell : Cell) :
  (size (neighbors a cell) ≤ 8)%nat ∧
  (cell ∉ neighbors a cell) ∧
  (∀ c, c ∈ neighbors a cell → (0 ≤ c.1 < height a) ∧ (0 ≤ c.2 < width a)) ∧
  (∀ c, c ∈ neighbors a cell →
        (0 ≤ cell.1 < height a) → (0 ≤ cell.2 < width a) → cell ∈ neighbors a c).
Proof.
  assert (Hnot : cell ∉ neighbors a cell).
  { destruct cell as [i j]. rewrite elem_of_neighbors. by intros (_ & _ & ? & _). }
  split; [apply neighbors_size|split; [done|split]].
  - intros [i j]. rewrite elem_of_neighbors. simpl. by intros (_ & _ & _ & ? & ?).
  - intros [i j] Hc Hh Hw. destruct cell as [r k]. simpl in *.
    apply elem_of_neighbors in Hc as (Hi & Hj & Hne & Hh' & Hw'). simpl in *.
    apply elem_of_neighbors. simpl. repeat split; try done; lia.
Qed.

(** ** The random move *)

Lemma elem_of_guarded_singleton {A} (P : Prop) `{!Decision P} (x y : A) :
  y ∈ (if decide P then [x] else []) → y = x.
Proof.
  case_decide; [by intros ?%list_elem_of_singleton | by intros ?%elem_of_nil].
Qed.

Lemma choices_NoDup (a : MinesweeperAI) : NoDup (choices a).
Proof.
  unfold choices, range. apply NoDup_bind.
  - intros i1 i2 [i j] _ _ H1 H2.
    apply list_elem_of_bind in H1 as (j1 & H1 & _).
    apply list_elem_of_bind in H2 as (j2 & H2 & _).
    apply elem_of_guarded_singleton in H1, H2. congruence.
  - intros i _. apply NoDup_bind.
    + intros j1 j2 [i' j] _ _ H1 H2.
      apply elem_of_guarded_singleton in H1, H2. congruence.
    + intros j _. case_decide; [apply NoDup_singleton | apply NoDup_nil_2].
    + apply NoDup_seqZ.
  - apply NoDup_seqZ.
Qed.

(** X11: the list from which [make_random_move] draws holds every cell of
    the board that is neither in [moves_made] nor in [mines] exactly once,
    and each of these cells is returned for some answer of the generator. *)
Theorem make_random_move_fair (a : MinesweeperAI) :
  NoDup (choices a) ∧
  (∀ c, (0 ≤ c.1 < height a) → (0 ≤ c.2 < width a) →
        c ∉ moves_made a → c ∉ mines a →
        c ∈ choices a ∧
        ∃ k, (k < length (choices a))%nat ∧ (make_random_move (λ _, k) a).1 = Some c).
Proof.
  split; [apply choices_NoDup|]. intros c Hh Hw Hmv Hmn.
  assert (Hin : c ∈ choices a) by (by apply elem_of_choices).
  split; [done|]. apply list_elem_of_lookup in Hin as [k Hk].
  exists k. split; [by eapply lookup_lt_Some|].
  unfold make_random_move. destruct (choices a) as [|c0 cs]; [done|]. done.
Qed.

Lemma make_random_move_fair_witness :
  (2, 2) ∈ choices corner_revealed ∧
  ∃ k, (k < length (choices corner_revealed))%nat ∧
       (make_random_move (λ _, k) corner_revealed).1 = Some (2, 2).
Proof.
  apply (proj2 (make_random_move_fair corner_revealed) (2, 2)).
  - simpl. lia.
  - simpl. lia.
  - apply (bool_decide_unpack _). by vm_compute.
  - apply (bool_decide_unpack _). by vm_compute.
Defined.

(** * The board *)

(** ** Counting the mines around a cell *)

Lemma count_mines_filter (g : Minesweeper.t) (cell : Cell) :
  Minesweeper.consistent g →
  ∀ ps c0,
    Minesweeper.count_mines g cell ps c0 =
      Some (c0 + Z.of_nat (length (filter
              (λ p, p ≠ cell ∧
                    ((0 ≤ p.1 < Minesweeper.height g) ∧ (0 ≤ p.2 < Minesweeper.width g)) ∧
                    p ∈ Minesweeper.mines g) ps))).
Proof.
  intros [Hb _] ps. induction ps as [|[i j] ps IH]; intros c0; simpl.
  - f_equal. lia.
  - rewrite filter_cons. destruct (decide ((i, j) = cell)) as [Heq|Hne].
    + rewrite decide_False by (by intros [? _]). apply IH.
    + destruct (decide ((0 ≤ i < Minesweeper.height g) ∧ (0 ≤ j < Minesweeper.width g)))
        as [[Hi Hj]|Hout].
      * rewrite (Hb i j Hi Hj). simpl.
        destruct (decide ((i, j) ∈ Minesweeper.mines g)) as [Hm|Hm].
        -- rewrite bool_decide_eq_true_2 by done. rewrite decide_True by done.
           rewrite IH. simpl. f_equal. lia.
        -- rewrite bool_decide_eq_false_2 by done.
           rewrite decide_False by (by intros (_ & _ & ?)). apply IH.
      * rewrite decide_False by (by intros (_ & ? & _)). apply IH.
Qed.

Lemma nearby_mines_neighbors (g : Minesweeper.t) (a : MinesweeperAI) (cell : Cell) :
  Minesweeper.consistent g →
  height a = Minesweeper.height g → width a = Minesweeper.width g →
  Minesweeper.nearby_mines g cell =
    Some (Z.of_nat (size (neighbors a cell ∩ Minesweeper.mines g))).
Proof.
  intros Hg Hh Hw. unfold Minesweeper.nearby_mines.
  rewrite (count_mines_filter g cell Hg). f_equal. simpl. f_equal.
  set (Q := λ p : Cell, p ≠ cell ∧
              ((0 ≤ p.1 < Minesweeper.height g) ∧ (0 ≤ p.2 < Minesweeper.width g)) ∧
              p ∈ Minesweeper.mines g).
  assert (Heq : neighbors a cell ∩ Minesweeper.mines g =
                list_to_set (filter Q (Minesweeper.around cell))).
  { apply set_eq. intros p.
    rewrite elem_of_intersection, neighbors_around, !elem_of_list_to_set,
      !list_elem_of_filter, Hh, Hw. unfold Q. naive_solver. }
  rewrite Heq, size_list_to_set; [done|]. apply NoDup_filter, around_NoDup.
Qed.

(** X12: on a board whose field and mine set agree, [nearby_mines(cell)]
    never fails, lies between 0 and 8, and is the number of mines among
    the cells that the agent takes as the neighbours of [cell]. *)
Theorem nearby_mines_spec (g : Minesweeper.t) (cell : Cell) :
  Minesweeper.consistent g →
  ∃ n, Minesweeper.nearby_mines g cell = Some n ∧ 0 ≤ n ≤ 8 ∧
       ∀ a, height a = Minesweeper.height g → width a = Minesweeper.width g →
            n = Z.of_nat (size (neighbors a cell ∩ Minesweeper.mines g)).
Proof.
  intros Hg.
  set (a0 := init (Minesweeper.height g) (Minesweeper.width g)).
  pose proof (nearby_mines_neighbors g a0 cell Hg eq_refl eq_refl) as Hn.
  eexists. split; [exact Hn|]. split.
  - split; [lia|].
    assert (Hsz : (size (neighbors a0 cell ∩ Minesweeper.mines g) ≤ size (neighbors a0 cell))%nat)
      by (apply subseteq_size; set_solver).
    pose proof (neighbors_size a0 cell) as H8.
    lia.
  - intros a Hh Hw. pose proof (nearby_mines_neighbors g a cell Hg Hh Hw) as Hn'.
    rewrite Hn in Hn'. by injection Hn'.
Qed.

(** * Truthful play *)

(** ** Sentences that are true stay true *)

Lemma holds_bounds (M : gset Cell) (s : Sentence) :
  holds M s → 0 ≤ count s ≤ Sentence.len s.
Proof.
  unfold holds, Sentence.len. intros ->.
  assert ((size (cells s ∩ M) ≤ size (cells s))%nat) by (apply subseteq_size; set_solver).
  lia.
Qed.

Lemma holds_mark_safe (M : gset Cell) (s : Sentence) (c : Cell) :
  c ∉ M → holds M s → holds M (Sentence.mark_safe s c).
Proof.
  intros Hc Hs. rewrite Sentence_mark_safe_eq. unfold holds in *. simpl. rewrite Hs.
  do 2 f_equal. set_solver.
Qed.

Lemma holds_remove_mine (M : gset Cell) (s : Sentence) (c : Cell) :
  c ∈ M → holds M s →
  holds M (Sentence.remove_mine s c) ∧ 0 ≤ count (Sentence.remove_mine s c).
Proof.
  intros Hc Hs. unfold Sentence.remove_mine.
  destruct (decide (c ∈ cells s)) as [Hin|Hin]; simpl.
  - assert (Heq : (cells s ∖ {[c]}) ∩ M = (cells s ∩ M) ∖ {[c]}) by set_solver.
    assert (Hsz : size ((cells s ∩ M) ∖ {[c]}) = (size (cells s ∩ M) - size ({[c]} : gset Cell))%nat).
    { apply size_difference. set_solver. }
    rewrite size_singleton in Hsz.
    assert (Hpos : (0 < size (cells s ∩ M))%nat).
    { assert (Hne : size (cells s ∩ M) ≠ 0%nat).
      { apply size_non_empty_iff. set_solver. }
      lia. }
    unfold holds in *. simpl. rewrite Heq, Hsz, Hs. lia.
  - split; [done|]. by apply holds_bounds in Hs as [? _].
Qed.

Lemma holds_known_mines (M : gset Cell) (s : Sentence) :
  holds M s → Sentence.known_mines s ⊆ M.
Proof.
  intros Hs. unfold Sentence.known_mines, Sentence.len.
  case_decide as Hl; [|set_solver].
  unfold holds in Hs. rewrite Hs in Hl.
  assert (Heq : cells s ∩ M = cells s).
  { apply set_subseteq_size_eq; [set_solver | lia]. }
  set_solver.
Qed.

Lemma holds_known_safes (M : gset Cell) (s : Sentence) :
  holds M s → Sentence.known_safes s ## M.
Proof.
  intros Hs. unfold Sentence.known_safes. case_decide as H0; [|set_solver].
  unfold holds in Hs. rewrite H0 in Hs.
  assert (He : cells s ∩ M = ∅) by (apply leibniz_equiv, size_empty_iff; lia).
  set_solver.
Qed.

Lemma holds_infer (M : gset Cell) (s1 s2 : Sentence) (K : list Sentence) :
  holds M s1 → holds M s2 → Forall (holds M) K → Forall (holds M) (infer s1 s2 K).
Proof.
  intros H1 H2 HK.
  destruct (infer_cases s1 s2 K)
    as [-> | (new & -> & _ & _ & Hsub & Hcells & Hcount & _)]; [done|].
  apply Forall_app. split; [done|]. apply Forall_singleton.
  unfold holds in *. rewrite Hcount, Hcells, H1, H2.
  assert (Heq : (cells s2 ∖ cells s1) ∩ M = (cells s2 ∩ M) ∖ (cells s1 ∩ M)) by set_solver.
  assert (Hsz : size ((cells s2 ∩ M) ∖ (cells s1 ∩ M)) =
                (size (cells s2 ∩ M) - size (cells s1 ∩ M))%nat).
  { apply size_difference. set_solver. }
  assert (Hle : (size (cells s1 ∩ M) ≤ size (cells s2 ∩ M))%nat).
  { apply subseteq_size. set_solver. }
  rewrite Heq, Hsz. lia.
Qed.

(** ** The agent stays sound and never raises *)

Lemma sound_mark_safe (M : gset Cell) (a : MinesweeperAI) (c : Cell) :
  sound M a → c ∉ M → sound M (mark_safe a c).
Proof.
  intros (HK & Hm & Hs) Hc. split; [|split]; simpl.
  - apply Forall_fmap. eapply Forall_impl; [exact HK|].
    intros s Hh. by apply holds_mark_safe.
  - done.
  - set_solver.
Qed.

Lemma sound_mark_mine (M : gset Cell) (a : MinesweeperAI) (c : Cell) :
  sound M a → c ∈ M → ∃ a', mark_mine a c = Returned a' ∧ sound M a'.
Proof.
  intros (HK & Hm & Hs) Hc. unfold mark_mine. simpl.
  rewrite mark_mine_each_returns.
  - eexists. split; [done|]. split; [|split]; simpl.
    + apply Forall_fmap. eapply Forall_impl; [exact HK|].
      intros s Hh. simpl. by destruct (holds_remove_mine M s c Hc Hh).
    + set_solver.
    + done.
  - eapply Forall_impl; [exact HK|]. intros s Hh. simpl.
    by destruct (holds_remove_mine M s c Hc Hh).
Qed.

Lemma sound_mark_mines (M : gset Cell) (cs : list Cell) (a : MinesweeperAI) :
  sound M a → Forall (λ c, c ∈ M) cs →
  ∃ a', mark_mines cs a = Returned a' ∧ sound M a'.
Proof.
  intros Ha Hcs. revert a Ha. induction Hcs as [|c cs Hc _ IH]; intros a Ha; simpl.
  - by exists a.
  - destruct (sound_mark_mine M a c Ha Hc) as (a1 & -> & Ha1). by apply IH.
Qed.

Lemma sound_mark_safes (M : gset Cell) (cs : list Cell) (a : MinesweeperAI) :
  sound M a → Forall (λ c, c ∉ M) cs → sound M (mark_safes cs a).
Proof.
  unfold mark_safes. intros Ha Hcs. revert a Ha.
  induction Hcs as [|c cs Hc _ IH]; intros a Ha; simpl; [done|].
  apply IH. by apply sound_mark_safe.
Qed.

Lemma sound_conclude_at (M : gset Cell) (k : nat) (a : MinesweeperAI) :
  sound M a → ∃ a', conclude_at k a = Returned a' ∧ sound M a'.
Proof.
  intros Ha. unfold conclude_at.
  destruct (knowledge a !! k) as [s|] eqn:Hk; [|by exists a].
  assert (Hs : holds M s) by (destruct Ha as [HK _]; by eapply Forall_lookup_1).
  destruct (sound_mark_mines M (elements (Sentence.known_mines s)) a Ha)
    as (a1 & -> & Ha1).
  { apply Forall_forall. intros c Hc. apply elem_of_elements in Hc.
    by apply (holds_known_mines M s Hs). }
  destruct (knowledge a1 !! k) as [s1|] eqn:Hk1; [|by exists a1].
  eexists. split; [done|]. apply sound_mark_safes; [done|].
  assert (Hs1 : holds M s1) by (destruct Ha1 as [HK _]; by eapply Forall_lookup_1).
  apply Forall_forall. intros c Hc Hin. apply elem_of_elements in Hc.
  by apply (holds_known_safes M s1 Hs1 c).
Qed.

Lemma sound_conclude_each (M : gset Cell) (ks : list nat) (a : MinesweeperAI) :
  sound M a → ∃ a', conclude_each ks a = Returned a' ∧ sound M a'.
Proof.
  revert a. induction ks as [|k ks IH]; intros a Ha; simpl; [by exists a|].
  destruct (sound_conclude_at M k a Ha) as (a1 & -> & Ha1). by apply IH.
Qed.

Lemma sound_observe (M : gset Cell) (a : MinesweeperAI) (cell : Cell) :
  sound M a → cell ∉ M →
  sound M (observe a cell (Z.of_nat (size (neighbors a cell ∩ M)))).
Proof.
  intros Ha Hc.
  assert (Ha1 : sound M (add_move a cell)) by (by destruct Ha as (? & ? & ?)).
  destruct (sound_mark_safe M _ cell Ha1 Hc) as (HK & Hm & Hs).
  split; [|split]; [|done..]. unfold observe. simpl in *.
  apply Forall_app. split; [done|]. by apply Forall_singleton.
Qed.

Lemma sound_inference_pass (M : gset Cell) (a : MinesweeperAI) :
  sound M a →
  ∀ fuel o, inference_pass fuel a = Some o → ∃ a', o = Returned a' ∧ sound M a'.
Proof.
  intros Ha fuel o. unfold inference_pass, conclude.
  destruct (sound_conclude_each M (seq 0 (length (knowledge a))) a Ha)
    as (a1 & -> & (HK & Hm & Hs)).
  destruct (subset_loop fuel (retained a1) 0 0) as [K|] eqn:HKK; [|done].
  simpl. intros [= <-]. eexists. split; [done|]. split; [|split]; [|done..].
  simpl. refine (subset_loop_invariant (Forall (holds M)) _ _ _ _ _ _ HKK _).
  - intros s1 s2 L H1 H2 HL. apply holds_infer; [| |done].
    + by apply (proj1 (Forall_forall _ _) HL).
    + by apply (proj1 (Forall_forall _ _) HL).
  - unfold retained. apply dedup_Forall. unfold cleanup.
    apply Forall_forall. intros s Hin.
    apply list_elem_of_filter in Hin as [_ Hin].
    apply list_elem_of_filter in Hin as [_ Hin].
    by apply (proj1 (Forall_forall _ _) HK).
Qed.

(** X13: if everything the agent believes is true of a set of mines [M]
    and it is told, for a cell that is not in [M], the number of its
    neighbours that are in [M], then [add_knowledge] returns, never raises,
    and everything the agent believes afterwards is true of [M]: every
    sentence counts the cells of [M] among its cells, every cell of [mines]
    is in [M], no cell of [safes] is. *)
Theorem truthful_add_knowledge (M : gset Cell) (a : MinesweeperAI) (cell : Cell) :
  sound M a → cell ∉ M →
  (∃ fuel a', add_knowledge fuel a cell (Z.of_nat (size (neighbors a cell ∩ M)))
                = Some (Returned a')) ∧
  (∀ fuel o, add_knowledge fuel a cell (Z.of_nat (size (neighbors a cell ∩ M))) = Some o →
             ∃ a', o = Returned a' ∧ sound M a').
Proof.
  intros Ha Hc. pose proof (sound_observe M a cell Ha Hc) as Ho.
  assert (Hall : ∀ fuel o,
            add_knowledge fuel a cell (Z.of_nat (size (neighbors a cell ∩ M))) = Some o →
            ∃ a', o = Returned a' ∧ sound M a').
  { intros fuel o. by apply sound_inference_pass. }
  split; [|exact Hall].
  destruct (add_knowledge_terminates a cell (Z.of_nat (size (neighbors a cell ∩ M))))
    as (fuel & o & Hrun).
  destruct (Hall fuel o Hrun) as (a' & -> & _). eauto.
Qed.

(** ** Playing on a board *)

Lemma add_knowledge_bounds (fuel : nat) (a a' : MinesweeperAI) (cell : Cell) (n : Z) :
  add_knowledge fuel a cell n = Some (Returned a') →
  height a' = height a ∧ width a' = width a.
Proof.
  intros H. unfold add_knowledge in H.
  pose proof H as H'. apply inference_pass_returned in H' as (a1 & K & Hc & _ & _).
  destruct (inference_pass_sets _ _ _ _ Hc H) as (_ & _ & _ & -> & ->).
  unfold conclude in Hc.
  refine (conclude_each_invariant (λ x, height x = height a ∧ width x = width a)
            _ _ _ _ _ _ Hc).
  - intros x c x' [Hh Hw] Hm. destruct (mark_mine_sets x c) as (_ & _ & _ & Hh' & Hw').
    rewrite Hm in Hh', Hw'. simpl in *. by rewrite Hh', Hw'.
  - intros x c [Hh Hw]. done.
  - done.
Qed.

Lemma played_sound (g : Minesweeper.t) (a : MinesweeperAI) :
  Minesweeper.consistent g → played g a →
  sound (Minesweeper.mines g) a ∧
  height a = Minesweeper.height g ∧ width a = Minesweeper.width g.
Proof.
  intros Hg Hp. induction Hp as [|fuel a cell n a' _ (Ha & Hh & Hw) Hc Hn Hrun].
  - split; [|done]. split; [constructor|]. simpl. set_solver.
  - rewrite (nearby_mines_neighbors g a cell Hg Hh Hw) in Hn. injection Hn as <-.
    destruct (add_knowledge_bounds _ _ _ _ _ Hrun) as [Hh' Hw'].
    split; [|by rewrite Hh', Hw'].
    unfold add_knowledge in Hrun.
    destruct (sound_inference_pass _ _ (sound_observe _ a cell Ha Hc) _ _ Hrun)
      as (a'' & [= <-] & Hs). done.
Qed.

(** X14: an agent created for a board and told, for cells that are not
    mines, the counts that the board gives is never wrong and never fails:
    every cell of [mines] is a mine, no cell of [safes] is, the two sets
    are disjoint, every sentence has a count between 0 and its number of
    cells, [make_safe_move] never returns a mine, and the next truthful
    report returns as well. *)
Theorem played_never_wrong (g : Minesweeper.t) (a : MinesweeperAI) :
  Minesweeper.consistent g → played g a →
  mines a ⊆ Minesweeper.mines g ∧ safes a ## Minesweeper.mines g ∧
  mines a ## safes a ∧
  Forall (λ s, 0 ≤ count s ≤ Sentence.len s) (knowledge a) ∧
  (∀ c, (make_safe_move a).1 = Some c → c ∉ Minesweeper.mines g) ∧
  (∀ cell n fuel o, cell ∉ Minesweeper.mines g →
     Minesweeper.nearby_mines g cell = Some n →
     add_knowledge fuel a cell n = Some o → ∃ a', o = Returned a').
Proof.
  intros Hg Hp. destruct (played_sound g a Hg Hp) as ((HK & Hm & Hs) & Hh & Hw).
  split; [done|]. split; [done|]. split; [set_solver|]. split; [|split].
  - eapply Forall_impl; [exact HK|]. intros s. apply holds_bounds.
  - intros c Hc. unfold make_safe_move in Hc. simpl in Hc.
    apply find_some in Hc as [Hin _].
    apply list_elem_of_In, elem_of_elements in Hin. set_solver.
  - intros cell n fuel o Hc Hn Hrun.
    rewrite (nearby_mines_neighbors g a cell Hg Hh Hw) in Hn. injection Hn as <-.
    unfold add_knowledge in Hrun.
    assert (Ha : sound (Minesweeper.mines g) a) by done.
    destruct (sound_inference_pass _ _ (sound_observe _ a cell Ha Hc) _ _ Hrun)
      as (a'' & -> & _). eauto.
Qed.

(** * Building the board *)

(** ** Python indexing on the field *)

Lemma position_in_range (n : nat) (i : Z) :
  0 ≤ i < Z.of_nat n → Minesweeper.position n i = Some (Z.to_nat i).
Proof.
  intros Hi. unfold Minesweeper.position.
  rewrite decide_True by lia. by rewrite decide_True by lia.
Qed.

Lemma position_negative (n : nat) (i : Z) :
  - Z.of_nat n ≤ i < 0 →
  Minesweeper.position n i = Some (Z.to_nat (Z.of_nat n + i)).
Proof.
  intros Hi. unfold Minesweeper.position.
  rewrite decide_False by lia. by rewrite decide_True by lia.
Qed.

Lemma position_outside (n : nat) (i : Z) :
  i < - Z.of_nat n ∨ Z.of_nat n ≤ i → Minesweeper.position n i = None.
Proof.
  intros Hi. unfold Minesweeper.position.
  destruct (decide (0 ≤ i)); [by rewrite decide_False by lia|].
  by rewrite decide_False by lia.
Qed.

Lemma shaped_row (h w : Z) (b : list (list bool)) (k : nat) :
  Minesweeper.shaped h w b → (k < Z.to_nat h)%nat →
  ∃ row, b !! k = Some row ∧ length row = Z.to_nat w.
Proof.
  intros [Hlen Hrows] Hk.
  destruct (lookup_lt_is_Some_2 b k) as [row Hrow]; [lia|].
  exists row. split; [done|]. by apply (Forall_lookup_1 _ _ _ _ Hrows Hrow).
Qed.

Lemma board_at_in_range (h w : Z) (b : list (list bool)) (i j : Z) :
  Minesweeper.shaped h w b → 0 ≤ i < h → 0 ≤ j < w →
  ∃ row, b !! Z.to_nat i = Some row ∧ length row = Z.to_nat w ∧
         Minesweeper.board_at b i j = row !! Z.to_nat j.
Proof.
  intros Hs Hi Hj. destruct (shaped_row h w b (Z.to_nat i) Hs) as (row & Hrow & Hlen); [lia|].
  exists row. split; [done|]. split; [done|].
  unfold Minesweeper.board_at, Minesweeper.index. destruct Hs as [Hb _].
  rewrite position_in_range by lia. simpl. rewrite Hrow. simpl.
  by rewrite position_in_range by lia.
Qed.

Lemma board_set_shaped (h w : Z) (b : list (list bool)) (i j : Z) :
  Minesweeper.shaped h w b → Minesweeper.shaped h w (Minesweeper.board_set b i j).
Proof.
  intros [Hlen Hrows]. unfold Minesweeper.board_set.
  destruct (Minesweeper.position (length b) i) as [k|]; [|done]. split.
  - by rewrite length_alter.
  - apply Forall_forall. intros row Hin.
    apply list_elem_of_lookup in Hin as [k' Hk'].
    rewrite list_lookup_alter in Hk'. destruct (decide (k = k')) as [->|Hne].
    + destruct (b !! k') as [row0|] eqn:Hrow0; [|done]. simpl in Hk'.
      injection Hk' as <-. pose proof (Forall_lookup_1 _ _ _ _ Hrows Hrow0) as Hl.
      simpl in Hl. destruct (Minesweeper.position (length row0) j); [|done].
      by rewrite length_insert.
    + by apply (Forall_lookup_1 _ _ _ _ Hrows Hk').
Qed.

Lemma board_at_set (h w : Z) (b : list (list bool)) (i j i' j' : Z) :
  Minesweeper.shaped h w b → 0 ≤ i < h → 0 ≤ j < w → 0 ≤ i' < h → 0 ≤ j' < w →
  Minesweeper.board_at (Minesweeper.board_set b i j) i' j' =
    if decide ((i, j) = (i', j')) then Some true else Minesweeper.board_at b i' j'.
Proof.
  intros Hs Hi Hj Hi' Hj'.
  destruct (board_at_in_range h w b i' j' Hs Hi' Hj') as (row' & Hrow' & Hlen' & ->).
  destruct (board_at_in_range h w _ i' j' (board_set_shaped h w b i j Hs) Hi' Hj')
    as (row2 & Hrow2 & Hlen2 & ->).
  unfold Minesweeper.board_set in Hrow2. destruct Hs as [Hb Hrows].
  rewrite position_in_range in Hrow2 by lia.
  rewrite list_lookup_alter in Hrow2.
  destruct (decide (Z.to_nat i = Z.to_nat i')) as [Heq|Hne].
  - assert (i = i') as -> by lia. rewrite Hrow' in Hrow2. simpl in Hrow2.
    rewrite position_in_range in Hrow2 by lia. injection Hrow2 as <-.
    destruct (decide (j = j')) as [->|Hnej].
    + rewrite decide_True by done. apply list_lookup_insert_eq. lia.
    + rewrite decide_False by congruence. apply list_lookup_insert_ne. lia.
  - rewrite Hrow' in Hrow2. injection Hrow2 as <-.
    rewrite decide_False; [done|]. intros [= -> ->]. done.
Qed.

Lemma new_board_shaped (h w : Z) :
  Minesweeper.shaped h w (Minesweeper.new_board h w).
Proof.
  unfold Minesweeper.new_board, range. split.
  - rewrite length_fmap, length_seqZ. f_equal. lia.
  - apply Forall_fmap, Forall_forall. intros i _. simpl.
    rewrite length_fmap, length_seqZ. f_equal. lia.
Qed.

Lemma new_board_at (h w i j : Z) :
  0 ≤ i < h → 0 ≤ j < w →
  Minesweeper.board_at (Minesweeper.new_board h w) i j = Some false.
Proof.
  intros Hi Hj.
  destruct (board_at_in_range h w _ i j (new_board_shaped h w) Hi Hj)
    as (row & Hrow & Hlen & ->).
  unfold Minesweeper.new_board in Hrow. rewrite list_lookup_fmap in Hrow.
  destruct (range 0 h !! Z.to_nat i); [|done]. simpl in Hrow. injection Hrow as <-.
  rewrite list_lookup_fmap. unfold range. rewrite lookup_seqZ_lt by lia. done.
Qed.

(** ** Placing the mines *)

Lemma consistent_draw (h w : Z) (ms : gset Cell) (b : list (list bool)) (i j : Z) :
  Minesweeper.consistent (Minesweeper.mk h w ms b ∅) → Minesweeper.shaped h w b →
  Minesweeper.in_range h w (i, j) → (i, j) ∉ ms →
  Minesweeper.consistent
    (Minesweeper.mk h w ({[(i, j)]} ∪ ms) (Minesweeper.board_set b i j) ∅).
Proof.
  intros [Hb Hin] Hs [Hi Hj] Hnot. simpl in *. split; simpl.
  - intros i' j' Hi' Hj'. rewrite (board_at_set h w) by done.
    destruct (decide ((i, j) = (i', j'))) as [[= <- <-]|Hne].
    + rewrite bool_decide_eq_true_2; [done|]. set_solver.
    + rewrite (Hb i' j' Hi' Hj'). f_equal. apply bool_decide_ext.
      rewrite elem_of_union, elem_of_singleton. naive_solver.
  - intros i' j' Hm. apply elem_of_union in Hm as [Hm|Hm]; [|by apply Hin].
    apply elem_of_singleton in Hm. by injection Hm as -> ->.
Qed.

Lemma place_spec (h w n : Z) (draws : list Cell) :
  Forall (Minesweeper.in_range h w) draws →
  ∀ ms b r,
    Minesweeper.consistent (Minesweeper.mk h w ms b ∅) → Minesweeper.shaped h w b →
    Minesweeper.place h w n draws ms b = Some r →
    match r with
    | inl e => e = Minesweeper.ValueError ∧ n ≠ Z.of_nat (size ms) ∧ (h ≤ 0 ∨ w ≤ 0)
    | inr (ms', b') =>
        Minesweeper.consistent (Minesweeper.mk h w ms' b' ∅) ∧
        Minesweeper.shaped h w b' ∧ Z.of_nat (size ms') = n ∧ ms ⊆ ms'
    end.
Proof.
  induction 1 as [|[i j] draws Hd _ IH]; intros ms b r Hc Hs H; simpl in H.
  - destruct (decide (Z.of_nat (size ms) = n)); [by injection H as <-|].
    destruct (decide (h ≤ 0 ∨ w ≤ 0)); [|done]. injection H as <-. split; [done|]. split; [lia|done].
  - destruct (decide (Z.of_nat (size ms) = n)); [by injection H as <-|].
    destruct (decide (h ≤ 0 ∨ w ≤ 0)); [injection H as <-; split; [done|]; split; [lia|done]|].
    destruct Hd as [Hi Hj]. simpl in Hi, Hj.
    destruct Hc as [Hb Hin]. simpl in Hb, Hin. rewrite (Hb i j Hi Hj) in H.
    destruct (decide ((i, j) ∈ ms)) as [Hm|Hm].
    + rewrite bool_decide_eq_true_2 in H by done. by apply (IH ms b r).
    + rewrite bool_decide_eq_false_2 in H by done.
      assert (Hc' : Minesweeper.consistent
                (Minesweeper.mk h w ({[(i, j)]} ∪ ms) (Minesweeper.board_set b i j) ∅)).
      { apply consistent_draw; done. }
      pose proof (IH ({[(i, j)]} ∪ ms) (Minesweeper.board_set b i j) r Hc'
                    (board_set_shaped h w b i j Hs) H) as Hr.
      destruct r as [e|[ms' b']]; [|].
      * destruct Hr as (-> & _ & Hhw). done.
      * destruct Hr as (Hc2 & Hs2 & Hn2 & Hsub). split; [done|]. split; [done|].
        split; [done|]. intros x Hx. apply Hsub. apply elem_of_union. by right.
Qed.

Lemma new_board_consistent (h w : Z) :
  Minesweeper.consistent (Minesweeper.mk h w ∅ (Minesweeper.new_board h w) ∅).
Proof.
  split; simpl.
  - intros i j Hi Hj. by rewrite new_board_at.
  - intros i j Hm. by apply elem_of_empty in Hm.
Qed.

(** X15: when [Minesweeper(height, width, mines)] returns, the board has
    the given bounds and exactly [mines] mines, all on the board; the field
    is [height] rows of [width] entries and holds [True] exactly at the
    mines; no mine is found yet, so the game counts as won only if there
    are no mines. *)
Theorem Minesweeper_init_spec (h w n : Z) (draws : list Cell) (g : Minesweeper.t) :
  Forall (Minesweeper.in_range h w) draws →
  Minesweeper.init h w n draws = Some (inr g) →
  Minesweeper.height g = h ∧ Minesweeper.width g = w ∧
  Z.of_nat (size (Minesweeper.mines g)) = n ∧
  Minesweeper.mines_found g = ∅ ∧
  Minesweeper.consistent g ∧ Minesweeper.shaped h w (Minesweeper.board g) ∧
  (Minesweeper.won g = true ↔ n = 0).
Proof.
  intros Hd H. unfold Minesweeper.init in H.
  destruct (Minesweeper.place h w n draws ∅ (Minesweeper.new_board h w)) as [r|] eqn:Hp;
    [|done].
  simpl in H. injection H as H.
  pose proof (place_spec h w n draws Hd _ _ r (new_board_consistent h w)
                (new_board_shaped h w) Hp) as Hr.
  destruct r as [e|[ms b]]; [done|]. injection H as <-.
  destruct Hr as (Hc & Hs & Hn & _). simpl.
  split; [done|]. split; [done|]. split; [done|]. split; [done|].
  split; [done|]. split; [done|].
  unfold Minesweeper.won. simpl. rewrite bool_decide_eq_true. split.
  - intros Hw. rewrite <- Hw, size_empty in Hn. lia.
  - intros ->. symmetry. apply leibniz_equiv, size_empty_iff. lia.
Qed.

Lemma small_game_built :
  Minesweeper.init 2 3 1 [(1, 0)] = Some (inr small_game).
Proof. by vm_compute. Qed.

Lemma Minesweeper_init_spec_witness :
  Z.of_nat (size (Minesweeper.mines small_game)) = 1 ∧
  Minesweeper.consistent small_game.
Proof.
  assert (Hd : Forall (Minesweeper.in_range 2 3) [(1, 0)]).
  { repeat constructor; simpl; lia. }
  destruct (Minesweeper_init_spec 2 3 1 [(1, 0)] small_game Hd small_game_built)
    as (_ & _ & Hn & _ & Hc & _).
  by split.
Defined.

Lemma small_game_consistent : Minesweeper.consistent small_game.
Proof.
  assert (Hd : Forall (Minesweeper.in_range 2 3) [(1, 0)]).
  { repeat constructor; simpl; lia. }
  pose proof (place_spec 2 3 1 [(1, 0)] Hd ∅ (Minesweeper.new_board 2 3)
                (inr ({[ (1, 0) ]}, [ [false; false; false]; [true; false; false] ]))
                (new_board_consistent 2 3) (new_board_shaped 2 3)) as H.
  simpl in H. apply H. by vm_compute.
Qed.

(** ** When the constructor cannot finish *)

Lemma length_pairs (l1 l2 : list Z) :
  length (i ← l1; j ← l2; [(i, j)]) = (length l1 * length l2)%nat.
Proof.
  induction l1 as [|i l1 IH]; [done|].
  rewrite bind_cons, length_app, IH. simpl. f_equal.
  clear. induction l2 as [|j l2 IH]; [done|].
  rewrite bind_cons. simpl. by rewrite IH.
Qed.

Lemma length_all_cells (h w : Z) :
  length (Minesweeper.all_cells h w) = (Z.to_nat h * Z.to_nat w)%nat.
Proof.
  unfold Minesweeper.all_cells, range.
  rewrite length_pairs, !length_seqZ. f_equal; lia.
Qed.

Lemma all_cells_NoDup (h w : Z) : NoDup (Minesweeper.all_cells h w).
Proof.
  unfold Minesweeper.all_cells, range. apply NoDup_bind.
  - intros i1 i2 [i j] _ _ H1 H2.
    apply list_elem_of_bind in H1 as (j1 & H1 & _).
    apply list_elem_of_bind in H2 as (j2 & H2 & _).
    apply list_elem_of_singleton in H1, H2. congruence.
  - intros i _. apply NoDup_bind.
    + intros j1 j2 [i' j] _ _ H1 H2.
      apply list_elem_of_singleton in H1, H2. congruence.
    + intros j _. apply NoDup_singleton.
    + apply NoDup_seqZ.
  - apply NoDup_seqZ.
Qed.

Lemma elem_of_all_cells (h w : Z) (c : Cell) :
  c ∈ Minesweeper.all_cells h w ↔ Minesweeper.in_range h w c.
Proof.
  unfold Minesweeper.all_cells, Minesweeper.in_range, range.
  rewrite list_elem_of_bind. split.
  - intros (i & Hin & Hi). apply list_elem_of_bind in Hin as (j & Hin & Hj).
    apply list_elem_of_singleton in Hin as ->. apply elem_of_seqZ in Hi, Hj. simpl. lia.
  - destruct c as [i j]. simpl. intros [Hi Hj]. exists i. split.
    + apply list_elem_of_bind. exists j. split; [by apply list_elem_of_singleton|].
      apply elem_of_seqZ. lia.
    + apply elem_of_seqZ. lia.
Qed.

Lemma size_on_board (h w : Z) (ms : gset Cell) :
  0 ≤ h → 0 ≤ w → (∀ i j, (i, j) ∈ ms → (0 ≤ i < h) ∧ (0 ≤ j < w)) →
  Z.of_nat (size ms) ≤ h * w.
Proof.
  intros Hh Hw Hin.
  assert (Hsub : ms ⊆ list_to_set (Minesweeper.all_cells h w)).
  { intros [i j] Hc. apply elem_of_list_to_set, elem_of_all_cells. by apply Hin. }
  apply subseteq_size in Hsub.
  rewrite size_list_to_set in Hsub by apply all_cells_NoDup.
  rewrite length_all_cells in Hsub. nia.
Qed.

Lemma place_forever (h w n : Z) (draws : list Cell) :
  0 < h → 0 < w → n < 0 ∨ h * w < n →
  Forall (Minesweeper.in_range h w) draws →
  ∀ ms b,
    Minesweeper.consistent (Minesweeper.mk h w ms b ∅) → Minesweeper.shaped h w b →
    Minesweeper.place h w n draws ms b = None.
Proof.
  intros Hh Hw Hn. induction 1 as [|[i j] draws Hd _ IH]; intros ms b Hc Hs; simpl.
  - pose proof (size_on_board h w ms ltac:(lia) ltac:(lia) (proj2 Hc)) as Hsz.
    rewrite decide_False by lia. by rewrite decide_False by lia.
  - pose proof (size_on_board h w ms ltac:(lia) ltac:(lia) (proj2 Hc)) as Hsz.
    rewrite decide_False by lia. rewrite decide_False by lia.
    destruct Hd as [Hi Hj]. simpl in Hi, Hj.
    pose proof (proj1 Hc i j Hi Hj) as Hat. simpl in Hat. rewrite Hat.
    destruct (decide ((i, j) ∈ ms)) as [Hm|Hm].
    + rewrite bool_decide_eq_true_2 by done. by apply IH.
    + rewrite bool_decide_eq_false_2 by done. apply IH.
      * by apply consistent_draw.
      * by apply board_set_shaped.
Qed.

Lemma place_done (h w n : Z) (draws : list Cell) (ms : gset Cell) (b : list (list bool)) :
  Z.of_nat (size ms) = n → Minesweeper.place h w n draws ms b = Some (inr (ms, b)).
Proof. intros Hn. destruct draws as [|[i j] draws]; simpl; by rewrite decide_True. Qed.

Lemma place_raises (h w n : Z) (draws : list Cell) (ms : gset Cell) (b : list (list bool)) :
  Z.of_nat (size ms) ≠ n → h ≤ 0 ∨ w ≤ 0 →
  Minesweeper.place h w n draws ms b = Some (inl Minesweeper.ValueError).
Proof.
  intros Hn Hhw. destruct draws as [|[i j] draws]; simpl;
    rewrite (decide_False (P := Z.of_nat (size ms) = n)) by done;
    by rewrite decide_True.
Qed.

(** X16: the edge behaviour of [Minesweeper(height, width, mines)].  With
    [mines = 0] it returns at once, with no mine, whatever the bounds.
    With [mines] not 0 and a bound that is not positive it raises the
    ValueError of [randrange].  With positive bounds and [mines] negative
    or above [height * width] the loop never ends, whatever is drawn.  It
    never fails on an index. *)
Theorem Minesweeper_init_edges (h w n : Z) (draws : list Cell) :
  Forall (Minesweeper.in_range h w) draws →
  (n = 0 → ∃ g, Minesweeper.init h w n draws = Some (inr g) ∧
                Minesweeper.mines g = ∅) ∧
  (n ≠ 0 → h ≤ 0 ∨ w ≤ 0 →
     Minesweeper.init h w n draws = Some (inl Minesweeper.ValueError)) ∧
  (0 < h → 0 < w → n < 0 ∨ h * w < n → Minesweeper.init h w n draws = None) ∧
  Minesweeper.init h w n draws ≠ Some (inl Minesweeper.IndexError).
Proof.
  intros Hd. split; [|split; [|split]].
  - intros ->. unfold Minesweeper.init. rewrite place_done by (by rewrite size_empty).
    simpl. eauto.
  - intros Hn Hhw. unfold Minesweeper.init.
    assert (Hp : Minesweeper.place h w n draws ∅ (Minesweeper.new_board h w)
                 = Some (inl Minesweeper.ValueError)).
    { apply place_raises; [|done]. rewrite size_empty. lia. }
    by rewrite Hp.
  - intros Hh Hw Hn. unfold Minesweeper.init.
    rewrite (place_forever h w n draws Hh Hw Hn Hd); [done| |].
    + apply new_board_consistent.
    + apply new_board_shaped.
  - unfold Minesweeper.init.
    destruct (Minesweeper.place h w n draws ∅ (Minesweeper.new_board h w)) as [r|] eqn:Hp;
      [|done].
    pose proof (place_spec h w n draws Hd _ _ r (new_board_consistent h w)
                  (new_board_shaped h w) Hp) as Hr.
    simpl. destruct r as [e|[ms b]]; [|done]. destruct Hr as (-> & _). done.
Qed.

Lemma Minesweeper_init_edges_witness :
  Minesweeper.init 1 1 2 [(0, 0); (0, 0); (0, 0)] = None ∧
  Minesweeper.init 0 3 1 [] = Some (inl Minesweeper.ValueError).
Proof.
  assert (Hd : Forall (Minesweeper.in_range 1 1) [(0, 0); (0, 0); (0, 0)]).
  { repeat constructor; simpl; lia. }
  destruct (Minesweeper_init_edges 1 1 2 _ Hd) as (_ & _ & Hloop & _).
  destruct (Minesweeper_init_edges 0 3 1 [] (Forall_nil_2 _)) as (_ & Hraise & _).
  split; [apply Hloop; lia | apply Hraise; lia].
Defined.

(** ** Draws that finish the constructor *)

Lemma place_fresh (h w : Z) (draws : list Cell) :
  NoDup draws → Forall (Minesweeper.in_range h w) draws →
  ∀ ms b,
    (∀ c, c ∈ draws → c ∉ ms) →
    Minesweeper.consistent (Minesweeper.mk h w ms b ∅) → Minesweeper.shaped h w b →
    ∃ r, Minesweeper.place h w (Z.of_nat (size ms + length draws)) draws ms b
         = Some (inr r).
Proof.
  induction 1 as [|[i j] draws Hnew Hnd IH]; intros Hd ms b Hfresh Hc Hs.
  - rewrite place_done by (simpl; lia). eauto.
  - apply Forall_cons in Hd as [[Hi Hj] Hd]. simpl in Hi, Hj.
    assert (Hm : (i, j) ∉ ms) by (apply Hfresh; by left).
    simpl. rewrite decide_False by lia. rewrite decide_False by lia.
    pose proof (proj1 Hc i j Hi Hj) as Hat. simpl in Hat. rewrite Hat.
    rewrite bool_decide_eq_false_2 by done.
    assert (Hsz : size ({[(i, j)]} ∪ ms) = S (size ms)).
    { rewrite size_union by set_solver. by rewrite size_singleton. }
    replace (Z.of_nat (size ms + S (length draws)))
      with (Z.of_nat (size ({[(i, j)]} ∪ ms) + length draws)) by lia.
    apply IH; [done| | |].
    + intros c Hin Hc'. apply elem_of_union in Hc' as [Hc'|Hc'].
      * apply elem_of_singleton in Hc' as ->. done.
      * apply (Hfresh c); [by right | done].
    + by apply consistent_draw.
    + by apply board_set_shaped.
Qed.

(** X17: for every number of mines from 0 to [height * width] there are
    answers of [randrange] for which [Minesweeper(height, width, mines)]
    returns. *)
Theorem Minesweeper_init_returns (h w n : Z) :
  0 ≤ n ≤ h * w → 0 ≤ h → 0 ≤ w →
  ∃ draws g, Forall (Minesweeper.in_range h w) draws ∧
             Minesweeper.init h w n draws = Some (inr g).
Proof.
  intros Hn Hh Hw.
  set (draws := take (Z.to_nat n) (Minesweeper.all_cells h w)).
  assert (Hlen : length draws = Z.to_nat n).
  { unfold draws. rewrite length_take, length_all_cells. nia. }
  assert (Hd : Forall (Minesweeper.in_range h w) draws).
  { apply Forall_take, Forall_forall. intros c Hc. by apply elem_of_all_cells. }
  assert (Hnd : NoDup draws).
  { apply (sublist_NoDup draws (Minesweeper.all_cells h w));
      [apply all_cells_NoDup | apply sublist_take]. }
  destruct (place_fresh h w draws Hnd Hd ∅ (Minesweeper.new_board h w))
    as ([ms b] & Hp).
  - intros c _. apply not_elem_of_empty.
  - apply new_board_consistent.
  - apply new_board_shaped.
  - rewrite size_empty, Hlen in Hp. simpl in Hp. rewrite Z2Nat.id in Hp by lia.
    exists draws. eexists. split; [done|]. unfold Minesweeper.init. by rewrite Hp.
Qed.

Lemma Minesweeper_init_returns_witness :
  ∃ draws g, Forall (Minesweeper.in_range 2 3) draws ∧
             Minesweeper.init 2 3 4 draws = Some (inr g).
Proof. apply Minesweeper_init_returns; lia. Defined.

(** ** Asking for one cell *)

Lemma index_wraps {A} (l : list A) (i : Z) :
  0 ≤ i < Z.of_nat (length l) →
  Minesweeper.index l (i - Z.of_nat (length l)) = Minesweeper.index l i.
Proof.
  intros Hi. unfold Minesweeper.index.
  rewrite position_negative by lia. rewrite position_in_range by lia.
  simpl. f_equal. lia.
Qed.

(** An index that Python accepts, negative or not, names the position
    [i mod len]. *)
Lemma wrapped_index (n i : Z) : - n ≤ i < n → 0 ≤ i `mod` n < n ∧ (i < 0 → i `mod` n = n + i).
Proof.
  intros Hi. split; [apply Z.mod_pos_bound; lia|].
  intros Hneg. symmetry. apply (Z.mod_unique i n (-1) (n + i)); lia.
Qed.

Lemma index_mod {A} (l : list A) (i : Z) :
  - Z.of_nat (length l) ≤ i < Z.of_nat (length l) →
  Minesweeper.index l i = l !! Z.to_nat (i `mod` Z.of_nat (length l)).
Proof.
  intros Hi. unfold Minesweeper.index.
  destruct (decide (0 ≤ i)) as [Hpos|Hneg].
  - rewrite position_in_range by lia. simpl. by rewrite Z.mod_small by lia.
  - rewrite position_negative by lia. simpl.
    by rewrite (proj2 (wrapped_index _ i Hi)) by lia.
Qed.

Lemma index_outside {A} (l : list A) (i : Z) :
  i < - Z.of_nat (length l) ∨ Z.of_nat (length l) ≤ i → Minesweeper.index l i = None.
Proof. intros Hi. unfold Minesweeper.index. by rewrite position_outside. Qed.

Lemma index_elem_of {A} (l : list A) (i : Z) (x : A) :
  Minesweeper.index l i = Some x → x ∈ l.
Proof.
  unfold Minesweeper.index. destruct (Minesweeper.position (length l) i) as [k|]; [|done].
  simpl. apply list_elem_of_lookup_2.
Qed.

(** Reading the field at indices that Python accepts is reading it at the
    cell of the board that they name. *)
Lemma board_at_mod (h w : Z) (b : list (list bool)) (i j : Z) :
  Minesweeper.shaped h w b → - h ≤ i < h → - w ≤ j < w →
  Minesweeper.board_at b i j = Minesweeper.board_at b (i `mod` h) (j `mod` w).
Proof.
  intros Hs Hi Hj. destruct (wrapped_index h i Hi) as [Hi' _].
  destruct (wrapped_index w j Hj) as [Hj' _].
  destruct (board_at_in_range h w b _ _ Hs Hi' Hj') as (row & Hrow & Hlen & ->).
  destruct Hs as [Hlb _]. unfold Minesweeper.board_at.
  rewrite index_mod by lia.
  replace (Z.of_nat (length b)) with h by lia. rewrite Hrow. simpl.
  rewrite index_mod by lia. by replace (Z.of_nat (length row)) with w by lia.
Qed.

(** Any index out of range fails, the row first. *)
Lemma board_at_outside (h w : Z) (b : list (list bool)) (i j : Z) :
  Minesweeper.shaped h w b →
  i < - h ∨ h ≤ i ∨ j < - w ∨ w ≤ j → Minesweeper.board_at b i j = None.
Proof.
  intros [Hlb Hrows] Hout. unfold Minesweeper.board_at.
  destruct (Minesweeper.index b i) as [row|] eqn:Hidx; [|done]. simpl.
  assert (Hlen : length row = Z.to_nat w).
  { apply index_elem_of in Hidx. by apply (proj1 (Forall_forall _ _) Hrows). }
  destruct (decide (i < - h ∨ h ≤ i)) as [Hi|Hi].
  - rewrite index_outside in Hidx by lia. done.
  - apply index_outside. lia.
Qed.

(** X18: on a board as the constructor leaves it, [is_mine] says for a
    cell of the board whether it is a mine.  A negative row or column
    counts from the end, so that [(i - height, j)], [(i, j - width)] and
    [(i - height, j - width)] name the cell [(i, j)]: for every row index
    from [-height] to [height - 1] and every column index from [-width] to
    [width - 1] the answer is that of the cell [(i mod height, j mod
    width)].  Every other index fails: a row below [-height] or at least
    [height], and, whatever the row, a column below [-width] or at least
    [width]. *)
Theorem is_mine_spec (g : Minesweeper.t) (i j : Z) :
  Minesweeper.consistent g →
  Minesweeper.shaped (Minesweeper.height g) (Minesweeper.width g) (Minesweeper.board g) →
  (0 ≤ i < Minesweeper.height g → 0 ≤ j < Minesweeper.width g →
     Minesweeper.is_mine g (i, j) = Some (bool_decide ((i, j) ∈ Minesweeper.mines g)) ∧
     Minesweeper.is_mine g (i - Minesweeper.height g, j) = Minesweeper.is_mine g (i, j) ∧
     Minesweeper.is_mine g (i, j - Minesweeper.width g) = Minesweeper.is_mine g (i, j) ∧
     Minesweeper.is_mine g (i - Minesweeper.height g, j - Minesweeper.width g)
       = Minesweeper.is_mine g (i, j)) ∧
  (- Minesweeper.height g ≤ i < Minesweeper.height g →
   - Minesweeper.width g ≤ j < Minesweeper.width g →
     Minesweeper.is_mine g (i, j)
       = Some (bool_decide ((i `mod` Minesweeper.height g, j `mod` Minesweeper.width g)
                             ∈ Minesweeper.mines g))) ∧
  (i < - Minesweeper.height g ∨ Minesweeper.height g ≤ i ∨
   j < - Minesweeper.width g ∨ Minesweeper.width g ≤ j →
     Minesweeper.is_mine g (i, j) = None).
Proof.
  intros [Hb _] Hs. unfold Minesweeper.is_mine. simpl.
  set (h := Minesweeper.height g) in *. set (w := Minesweeper.width g) in *.
  assert (Hval : ∀ i' j', - h ≤ i' < h → - w ≤ j' < w →
            Minesweeper.board_at (Minesweeper.board g) i' j'
              = Some (bool_decide ((i' `mod` h, j' `mod` w) ∈ Minesweeper.mines g))).
  { intros i' j' Hi Hj. rewrite (board_at_mod h w) by done.
    apply Hb; [apply (wrapped_index h i' Hi) | apply (wrapped_index w j' Hj)]. }
  split; [|split].
  - intros Hi Hj.
    assert (Hi0 : i `mod` h = i) by (apply Z.mod_small; lia).
    assert (Hj0 : j `mod` w = j) by (apply Z.mod_small; lia).
    assert (Hi1 : (i - h) `mod` h = i)
      by (symmetry; apply (Z.mod_unique (i - h) h (-1) i); lia).
    assert (Hj1 : (j - w) `mod` w = j)
      by (symmetry; apply (Z.mod_unique (j - w) w (-1) j); lia).
    rewrite !Hval by lia. by rewrite Hi0, Hj0, Hi1, Hj1.
  - apply Hval.
  - by apply board_at_outside.
Qed.

Lemma small_game_shaped :
  Minesweeper.shaped 2 3 (Minesweeper.board small_game).
Proof. split; [done|]. by repeat constructor. Qed.

Lemma is_mine_spec_witness :
  Minesweeper.is_mine small_game (1, 0) = Some true ∧
  Minesweeper.is_mine small_game (-1, 0) = Some true ∧
  Minesweeper.is_mine small_game (-1, -3) = Some true ∧
  Minesweeper.is_mine small_game (-2, 2) = Some false ∧
  Minesweeper.is_mine small_game (2, 0) = None ∧
  Minesweeper.is_mine small_game (-1, 5) = None ∧
  Minesweeper.is_mine small_game (1, -4) = None.
Proof.
  pose proof (λ i j, is_mine_spec small_game i j small_game_consistent small_game_shaped)
    as H.
  destruct (H 1 0) as ((H1 & H2 & _ & H4) & _ & _); [simpl; lia..|].
  destruct (H (-2) 2) as (_ & H5 & _).
  destruct (H 2 0) as (_ & _ & H6).
  destruct (H (-1) 5) as (_ & _ & H7).
  destruct (H 1 (-4)) as (_ & _ & H8).
  split; [exact H1|]. split; [exact (eq_trans H2 H1)|].
  split; [exact (eq_trans H4 H1)|].
  split; [rewrite H5 by (simpl; lia); by vm_compute|].
  split; [apply H6; simpl; lia|].
  split; [apply H7; simpl; lia | apply H8; simpl; lia].
Defined.

(** ** Witnesses on the small board *)

Lemma nearby_mines_spec_witness :
  ∃ n, Minesweeper.nearby_mines small_game (0, 0) = Some n ∧ 0 ≤ n ≤ 8 ∧
       ∀ a, height a = 2 → width a = 3 →
            n = Z.of_nat (size (neighbors a (0, 0) ∩ Minesweeper.mines small_game)).
Proof. exact (nearby_mines_spec small_game (0, 0) small_game_consistent). Defined.

Lemma truthful_add_knowledge_witness :
  ∃ fuel a',
    add_knowledge fuel (init 2 3) (0, 0)
      (Z.of_nat (size (neighbors (init 2 3) (0, 0) ∩ {[ (1, 0) ]}))) = Some (Returned a').
Proof.
  apply (truthful_add_knowledge {[ (1, 0) ]} (init 2 3) (0, 0)).
  - split; [constructor|]. simpl. split; set_solver.
  - apply (bool_decide_unpack _). by vm_compute.
Defined.

Lemma two_reveals_played : played small_game two_reveals.
Proof.
  destruct two_reveals_run as [H1 H2].
  eapply (played_reveal small_game 20 one_reveal (0, 1) 1); [| | |exact H2].
  - eapply (played_reveal small_game 5 _ (0, 0) 1); [apply played_init| | |exact H1].
    + apply (bool_decide_unpack _). by vm_compute.
    + by vm_compute.
  - apply (bool_decide_unpack _). by vm_compute.
  - by vm_compute.
Qed.

Lemma played_never_wrong_witness :
  mines two_reveals ## safes two_reveals ∧
  Forall (λ s, 0 ≤ count s ≤ Sentence.len s) (knowledge two_reveals).
Proof.
  destruct (played_never_wrong small_game two_reveals small_game_consistent
              two_reveals_played) as (_ & _ & Hd & Hb & _).
  by split.
Defined.

(** * The corner revealed with count 0, on any agent *)

Lemma far_corner_revealed_run :
  add_knowledge 5 (init 3 3) (2, 2) 1 = Some (Returned far_corner_revealed).
Proof. by vm_compute. Qed.

Lemma far_corner_revealed_sound : sound {[ (2, 1) ]} far_corner_revealed.
Proof.
  split; [|split].
  - apply Forall_singleton. by vm_compute.
  - apply (bool_decide_unpack _). by vm_compute.
  - apply (bool_decide_unpack _). by vm_compute.
Qed.

Lemma corner_blocked_reachable : reachable corner_blocked.
Proof.
  assert (H : ∃ a1, add_knowledge 5 (init 3 3) (0, 2) 2 = Some (Returned a1) ∧
                    mark_safe a1 (1, 2) = corner_blocked).
  { exists {| height := 3; width := 3; moves_made := {[ (0, 2) ]}; mines := ∅;
              safes := {[ (0, 2) ]};
              knowledge := [ {| cells := {[ (0, 1); (1, 1); (1, 2) ]}; count := 2 |} ] |}.
    split; by vm_compute. }
  destruct H as (a1 & H1 & <-). apply reach_mark_safe.
  eapply reach_add_knowledge; [apply reach_init | exact H1].
Qed.

(** C7 (as amended): on an agent whose board has at least two rows and two
    columns, [add_knowledge((0,0), 0)] terminates, and whenever it returns,
    the cells (0,1), (1,0) and (1,1) are in [safes].  It returns, and does
    not raise, whenever what the agent holds is true of some set of mines
    that contains neither (0,0) nor a neighbour of (0,0): every sentence
    counts the mines among its cells, [mines] holds only mines and [safes]
    holds none; all of that is true again afterwards.  It returns as well
    whenever the knowledge base is empty, as on a new agent. *)
Theorem corner_zero_safe (a : MinesweeperAI) :
  2 ≤ height a → 2 ≤ width a →
  (∃ fuel o, add_knowledge fuel a (0, 0) 0 = Some o) ∧
  (∀ fuel a', add_knowledge fuel a (0, 0) 0 = Some (Returned a') →
     {[ (0, 1); (1, 0); (1, 1) ]} ⊆ safes a') ∧
  (∀ M, sound M a → (0, 0) ∉ M → neighbors a (0, 0) ## M →
     ∃ fuel a', add_knowledge fuel a (0, 0) 0 = Some (Returned a') ∧
                {[ (0, 1); (1, 0); (1, 1) ]} ⊆ safes a' ∧ sound M a') ∧
  (knowledge a = [] →
     ∃ fuel a', add_knowledge fuel a (0, 0) 0 = Some (Returned a') ∧
                {[ (0, 1); (1, 0); (1, 1) ]} ⊆ safes a').
Proof.
  intros Hh Hw. split; [apply add_knowledge_terminates|].
  split; [intros fuel a'; by apply corner_zero_marks|]. split.
  - intros M Ha H0 Hn.
    assert (Hz : Z.of_nat (size (neighbors a (0, 0) ∩ M)) = 0).
    { replace (neighbors a (0, 0) ∩ M) with (∅ : gset Cell) by set_solver.
      by rewrite size_empty. }
    pose proof (sound_observe M a (0, 0) Ha H0) as Ho. rewrite Hz in Ho.
    destruct (add_knowledge_terminates a (0, 0) 0) as (fuel & o & Hrun).
    destruct (sound_inference_pass M _ Ho fuel o Hrun) as (a' & -> & Ha').
    exists fuel, a'. split; [done|]. split; [|done].
    by apply (corner_zero_marks a fuel).
  - intros HK. destruct (corner_zero_returns_fresh a HK) as (fuel & a' & Hrun).
    exists fuel, a'. split; [done|]. by apply (corner_zero_marks a fuel).
Qed.

Lemma corner_zero_safe_witness :
  (add_knowledge 1 (init 3 3) (0, 0) 0 = Some (Returned corner_revealed) ∧
   {[ (0, 1); (1, 0); (1, 1) ]} ⊆ safes corner_revealed) ∧
  (add_knowledge 5 (init 3 3) (2, 2) 1 = Some (Returned far_corner_revealed) ∧
   knowledge far_corner_revealed ≠ [] ∧
   ∃ fuel a', add_knowledge fuel far_corner_revealed (0, 0) 0 = Some (Returned a') ∧
              {[ (0, 1); (1, 0); (1, 1) ]} ⊆ safes a' ∧ sound {[ (2, 1) ]} a').
Proof.
  split.
  - assert (Hh : 2 ≤ height (init 3 3)) by (simpl; lia).
    assert (Hw : 2 ≤ width (init 3 3)) by (simpl; lia).
    assert (Hrun : add_knowledge 1 (init 3 3) (0, 0) 0 = Some (Returned corner_revealed))
      by (by vm_compute).
    destruct (corner_zero_safe (init 3 3) Hh Hw) as (_ & Hsafe & _ & _).
    split; [exact Hrun|]. exact (Hsafe 1%nat corner_revealed Hrun).
  - assert (Hh : 2 ≤ height far_corner_revealed) by (simpl; lia).
    assert (Hw : 2 ≤ width far_corner_revealed) by (simpl; lia).
    destruct (corner_zero_safe far_corner_revealed Hh Hw) as (_ & _ & Hret & _).
    split; [exact far_corner_revealed_run|]. split; [done|].
    apply (Hret {[ (2, 1) ]} far_corner_revealed_sound).
    + apply (bool_decide_unpack _). by vm_compute.
    + apply (bool_decide_unpack _). by vm_compute.
Defined.

(** C7 fails as stated: there are agents on which the call does not make
    the three cells safe.  [corner_blocked] is reached by calls that return;
    its one sentence says that (0,1) and (1,1) are both mines.  On it
    [add_knowledge((0,0), 0)] never returns: step 4 marks the first cell of
    that sentence as a mine, the new sentence {(0,1),(1,0),(1,1)} with
    count 0 contains it, and [Sentence.mark_mine] raises ValueError on the
    count -1.  Whichever of the two cells comes first, the state at the
    raise has none of (0,1), (1,0), (1,1) in [safes]. *)
Lemma corner_zero_raises :
  reachable corner_blocked ∧ 2 ≤ height corner_blocked ∧ 2 ≤ width corner_blocked ∧
  ∀ fuel, ∃ a', add_knowledge fuel corner_blocked (0, 0) 0 = Some (Raised ValueError a') ∧
                safes a' = {[ (0, 0); (0, 2); (1, 2) ]} ∧
                ((0, 1) ∉ safes a') ∧ ((1, 0) ∉ safes a') ∧ ((1, 1) ∉ safes a').
Proof.
  split; [exact corner_blocked_reachable|]. split; [simpl; lia|]. split; [simpl; lia|].
  intros fuel. unfold add_knowledge, inference_pass.
  destruct (conclude (observe corner_blocked (0, 0) 0)) as [a'|[] a'] eqn:Hc;
    [by vm_compute in Hc|].
  exists a'. split; [done|].
  assert (Hs : safes a' = {[ (0, 0); (0, 2); (1, 2) ]}).
  { apply (f_equal (λ o, safes (state_of o))) in Hc. simpl in Hc. rewrite <- Hc.
    by vm_compute. }
  rewrite Hs. split; [done|].
  split; [|split]; apply (bool_decide_unpack _); by vm_compute.
Qed.
